(** * typebox: the declaration-analysis and code-synthesis engine

    A shallow embedding of [scripts/helpers/typebox.js] (classes [Method] and
    [ProgramGenerator]), of the helpers of [scripts/helpers/utils.js] and of
    the command of [scripts/generate/types.js], followed by the properties of
    the specification.

    Conventions of the model:
    - a JavaScript string is a [string]; one [ascii] stands for one code unit
      below 256;
    - an array is a [list]; [push] appends at the end;
    - the object returned by [groupBy] is a [gmap string _] together with the
      property names every plain object inherits from [Object.prototype];
    - a run that throws returns [Throw];
    - a pattern that is a disjunction of texts without syntax characters is
      interpreted; on every other pattern the engine of the host is a
      parameter;
    - the files on disk are a [gmap string string]; a promise nobody awaits
      is the function the event loop applies to the files later;
    - the packages the code calls (the TypeScript parser, [mustache],
      [prettier]) and [localeCompare] are parameters. *)

From Stdlib Require Import Ascii String.
From stdpp Require Import gmap strings list sorting.

Local Open Scope string_scope.

(** ** JavaScript strings *)

Module JsString.

(** [s.startsWith(t)] *)
Fixpoint startsWith (t s : string) : bool :=
  match t, s with
  | EmptyString, _ => true
  | String a t', String b s' => if decide (a = b) then startsWith t' s' else false
  | String _ _, EmptyString => false
  end.

(** White space in the sense of [String.prototype.trim], among the code
    units below 256: TAB, LF, VT, FF, CR, SP and NBSP. *)
Definition isWhiteSpace (c : ascii) : bool :=
  let n := nat_of_ascii c in
  (Nat.leb 9 n && Nat.leb n 13) || Nat.eqb n 32 || Nat.eqb n 160.

Fixpoint trimStart (s : string) : string :=
  match s with
  | EmptyString => EmptyString
  | String c s' => if isWhiteSpace c then trimStart s' else s
  end.

Fixpoint trimEnd (s : string) : string :=
  match s with
  | EmptyString => EmptyString
  | String c s' =>
      match trimEnd s' with
      | EmptyString => if isWhiteSpace c then EmptyString else String c EmptyString
      | r => String c r
      end
  end.

(** [s.trim()] *)
Definition trim (s : string) : string := trimEnd (trimStart s).

(** [s.replaceAll(pat, rep)] for a string pattern [pat] and a replacement
    [rep] that holds no [$]: the occurrences of [pat] are found from left to
    right, the search resuming after each one ([skip] counts the code units
    of the current occurrence still to be dropped). An empty pattern occurs
    before every code unit and at the end. *)
Fixpoint replaceAllFrom (pat rep : string) (skip : nat) (s : string) : string :=
  match skip with
  | S k =>
      match s with
      | EmptyString => EmptyString
      | String _ s' => replaceAllFrom pat rep k s'
      end
  | O =>
      if startsWith pat s then
        rep ++ match s with
               | EmptyString => EmptyString
               | String c s' =>
                   match pat with
                   | EmptyString => String c (replaceAllFrom pat rep 0 s')
                   | String _ pat' => replaceAllFrom pat rep (String.length pat') s'
                   end
               end
      else
        match s with
        | EmptyString => EmptyString
        | String c s' => String c (replaceAllFrom pat rep 0 s')
        end
  end.

Definition replaceAll (pat rep s : string) : string := replaceAllFrom pat rep 0 s.

(** [Array.from(s.matchAll(new RegExp(alts.join("|"), "g")))] projected on
    the matched texts, for alternatives that hold no regular-expression
    metacharacter: at each position the first alternative, in the order of
    the list, that the text starts with is the match; the scan resumes after
    it, and one code unit further after an empty match. *)
Fixpoint matchAllFrom (alts : list string) (skip : nat) (s : string) : list string :=
  match skip with
  | S k =>
      match s with
      | EmptyString => []
      | String _ s' => matchAllFrom alts k s'
      end
  | O =>
      match List.find (fun t => startsWith t s) alts with
      | Some t =>
          t :: match s with
               | EmptyString => []
               | String _ s' => matchAllFrom alts (String.length t - 1) s'
               end
      | None =>
          match s with
          | EmptyString => []
          | String _ s' => matchAllFrom alts 0 s'
          end
      end
  end.

Definition matchAll (alts : list string) (s : string) : list string :=
  matchAllFrom alts 0 s.

(** [arr.join(sep)] *)
Fixpoint join (sep : string) (arr : list string) : string :=
  match arr with
  | [] => EmptyString
  | [x] => x
  | x :: rest => x ++ sep ++ join sep rest
  end.

End JsString.

Import JsString.

(** ** utils.js *)

Module utils.

(** [addPrefix(prefix, separator, value)] *)
Definition addPrefix (prefix separator value : string) : string :=
  prefix ++ separator ++ value.

(** [arr.includes(x)] *)
Definition includes {A} `{EqDecision A} (arr : list A) (x : A) : bool :=
  bool_decide (x ∈ arr).

(** The loop body shared by [Set.prototype.add] and by the guarded pushes of
    typebox.js: [if (!arr.includes(x)) arr.push(x)]. *)
Definition pushIfAbsent {A} `{EqDecision A} (arr : list A) (x : A) : list A :=
  if includes arr x then arr else (arr ++ [x])%list.

(** [getUnique(arr)], that is [Array.from(new Set(arr))]: a set keeps its
    elements in insertion order. *)
Definition getUnique {A} `{EqDecision A} (arr : list A) : list A :=
  fold_left pushIfAbsent arr [].

(** [trim(value)] *)
Definition trim (value : string) : string := JsString.trim value.

End utils.

(** ** Outcome of a run *)

(** A computation either completes with a value or throws. *)
Inductive completion (A : Type) : Type :=
| Normal (a : A)
| Throw (error : string).
Arguments Normal {A} a.
Arguments Throw {A} error.

Global Instance completion_ret : MRet completion := fun A a => Normal a.

Global Instance completion_bind : MBind completion := fun A B k c =>
  match c with
  | Normal a => k a
  | Throw e => Throw e
  end.

(** ** Arrays *)

Module Array.

Section Sort.
Context {A : Type} (compare : A → A → Z).

Fixpoint insert (x : A) (sorted : list A) : list A :=
  match sorted with
  | [] => [x]
  | y :: rest =>
      if decide (compare x y ≤ 0)%Z then x :: y :: rest else y :: insert x rest
  end.

(** [x] may stand before [y] in an array sorted by [compare]. *)
Definition ranksBefore (x y : A) : Prop := (compare x y ≤ 0)%Z.

(** [arr.sort(compare)]: the sort of ECMAScript is stable; among the
    elements [compare] ranks alike the earlier one stays first. *)
Fixpoint sort (arr : list A) : list A :=
  match arr with
  | [] => []
  | x :: rest => insert x (sort rest)
  end.
End Sort.

End Array.

(** ** Regular expressions *)

Module RegExp.

(** The characters the grammar of patterns reserves, its [SyntaxCharacter]. *)
Definition syntaxCharacters : list ascii :=
  ["^"; "$"; "\"; "."; "*"; "+"; "?"; "("; ")"; "["; "]"; "{"; "}"; "|"]%char.

Definition isSyntaxCharacter (c : ascii) : bool := bool_decide (c ∈ syntaxCharacters).

(** A text that holds no syntax character: as a pattern it matches itself,
    code unit by code unit, and nothing else. *)
Fixpoint literal (t : string) : bool :=
  match t with
  | EmptyString => true
  | String c t' => negb (isSyntaxCharacter c) && literal t'
  end.

(** The stretches of a pattern source between its bars. When none of them
    holds a syntax character they are the alternatives of the pattern. *)
Fixpoint alternatives (source : string) : list string :=
  match source with
  | EmptyString => [EmptyString]
  | String c rest =>
      if decide (c = "|"%char) then EmptyString :: alternatives rest
      else match alternatives rest with
           | [] => [String c EmptyString]
           | alt :: alts => String c alt :: alts
           end
  end.

Section WithHost.
(** The engine of the host on the sources the model does not interpret:
    [hostMatchAll source value] stands for
    [Array.from(value.matchAll(new RegExp(source, "g")))] projected on the
    matched texts; it throws the [SyntaxError] of a source that is no
    pattern. *)
Variable hostMatchAll : string → string → completion (list string).

(** [Array.from(value.matchAll(new RegExp(source, "g")))] projected on the
    matched texts. A source that is a disjunction of literal texts is
    matched by [JsString.matchAll]; every other source is left to the
    host. *)
Definition matchAll (source value : string) : completion (list string) :=
  let alts := alternatives source in
  if forallb literal alts then Normal (JsString.matchAll alts value)
  else hostMatchAll source value.
End WithHost.

End RegExp.

(** ** The declarations read from the TypeScript program *)

(** A parameter of a method; [parameter_name] is the text of its name. *)
Record ParameterDeclaration := {
  parameter_name : option string;
}.

(** A method declaration that carries a name ([NamedMethodDeclaration]);
    [method_name] is the text of the name. *)
Record NamedMethodDeclaration := {
  method_name : string;
  parameters : list ParameterDeclaration;
}.

(** A member of a class. *)
Inductive ClassElement :=
| MethodDeclaration (name : option string) (params : list ParameterDeclaration)
| OtherClassElement.

(** A class declaration that carries a name ([NamedClassDeclaration]). *)
Record NamedClassDeclaration := {
  class_name : string;
  members : list ClassElement;
}.

(** A top-level node of a source file. *)
Inductive Node :=
| ClassDeclaration (name : option string) (elements : list ClassElement)
| OtherNode.

Record SourceFile := {
  fileName : string;
  getFullText : string;
  children : list Node;
}.

Global Instance ParameterDeclaration_eq_dec : EqDecision ParameterDeclaration.
Proof. solve_decision. Defined.
Global Instance NamedMethodDeclaration_eq_dec : EqDecision NamedMethodDeclaration.
Proof. solve_decision. Defined.
Global Instance ClassElement_eq_dec : EqDecision ClassElement.
Proof. solve_decision. Defined.
Global Instance NamedClassDeclaration_eq_dec : EqDecision NamedClassDeclaration.
Proof. solve_decision. Defined.

(** ** utils.js, continued *)

Module Object.

(** The property names a plain object inherits from [Object.prototype]. *)
Definition prototype_keys : list string :=
  [ "constructor"; "hasOwnProperty"; "isPrototypeOf"; "propertyIsEnumerable";
    "toLocaleString"; "toString"; "valueOf"; "__proto__";
    "__defineGetter__"; "__defineSetter__"; "__lookupGetter__"; "__lookupSetter__" ].

End Object.

Section GroupBy.
Context {T : Type} (selector : T → string).

(** One turn of the loop of [groupBy]: [(ret[key] ??= []).push(element)].
    Under an inherited key the object already reads as a value that is
    neither nullish nor an array, and the call of [push] throws. *)
Definition groupBy_step (ret : gmap string (list T)) (element : T)
  : completion (gmap string (list T)) :=
  let key := selector element in
  if utils.includes Object.prototype_keys key then
    Throw "TypeError: arr.push is not a function"
  else
    Normal (<[key := (default [] (ret !! key) ++ [element])%list]> ret).

Fixpoint groupBy_loop (ret : gmap string (list T)) (iterable : list T)
  : completion (gmap string (list T)) :=
  match iterable with
  | [] => Normal ret
  | element :: rest => ret' ← groupBy_step ret element; groupBy_loop ret' rest
  end.

(** [groupBy(iterable, selector)] *)
Definition groupBy (iterable : list T) : completion (gmap string (list T)) :=
  groupBy_loop ∅ iterable.
End GroupBy.

(** The line feed, ["\n"] in the source. *)
Definition LF : string := String "010"%char EmptyString.

Module Jsdoc.

Definition start : string := "/**".
Definition end_ : string := " */".
Definition emptyLine : string := " *".

(** [Jsdoc.description.render(obj)], where [Jsdoc.description] is
    [Template.create(" * {{description}}", ["{{", "}}"])]. [Template] belongs
    to the package [@toridoriv/toolkit]; rendering puts the value of the
    field in the place of its placeholder. *)
Definition description_render (description : string) : string :=
  replaceAll "{{description}}" description " * {{description}}".

End Jsdoc.

(** ** Class Method *)

Module Method.

Record t := {
  name : string;
  description : string;
  declarations : list NamedMethodDeclaration;
  parameters_names : list string;
}.

Record TemplateData := {
  td_name : string;
  td_comment : string;
  td_parameters : string;
}.

(** [new Method(name, generator)] *)
Definition new (name : string) : t :=
  {| name := name;
     description := "Creates an schema for a " ++ name ++ " type.";
     declarations := [];
     parameters_names := [] |}.

(** [Method.init(generator, name)] *)
Definition init (name : string) : t := new name.

(** The texts the loop of [#step1_addParametersNames] walks through:
    [declarations.map(pick("parameters")).flat().filter(has("name"))
     .map(pick("name"))], each read with [getText()]. *)
Definition parameterTexts (decls : list NamedMethodDeclaration) : list string :=
  omap parameter_name (concat (map parameters decls)).

(** [#step1_addParametersNames()] *)
Definition step1_addParametersNames (m : t) : t :=
  {| name := name m;
     description := description m;
     declarations := declarations m;
     parameters_names :=
       fold_left utils.pushIfAbsent (parameterTexts (declarations m)) (parameters_names m) |}.

(** [addDeclarations(...declarations)] *)
Definition addDeclarations (m : t) (decls : list NamedMethodDeclaration) : t :=
  {| name := name m;
     description := description m;
     declarations := (declarations m ++ decls)%list;
     parameters_names := parameters_names m |}.

(** [triggerInitTasks()] *)
Definition triggerInitTasks (m : t) : t := step1_addParametersNames m.

(** [getTemplateData()] *)
Definition getTemplateData (m : t) : TemplateData :=
  let commentLines :=
    [Jsdoc.start; Jsdoc.description_render (description m); Jsdoc.emptyLine; Jsdoc.end_] in
  {| td_name := name m;
     td_comment := join LF commentLines;
     td_parameters := join ", " (parameters_names m) |}.

End Method.

(** ** The pattern [/\w+Options /g] *)

Module OptionsPattern.

(** [\w] *)
Definition isWordChar (c : ascii) : bool :=
  let n := nat_of_ascii c in
  (Nat.leb 48 n && Nat.leb n 57) || (Nat.leb 65 n && Nat.leb n 90)
  || Nat.eqb n 95 || (Nat.leb 97 n && Nat.leb n 122).

Fixpoint drop (n : nat) (s : string) : string :=
  match n, s with
  | S k, String _ s' => drop k s'
  | _, _ => s
  end.

Fixpoint take (n : nat) (s : string) : string :=
  match n, s with
  | S k, String c s' => String c (take k s')
  | _, _ => EmptyString
  end.

(** The length of the longest run of word characters [s] starts with: what
    the greedy [\w+] takes first. *)
Fixpoint wordRun (s : string) : nat :=
  match s with
  | String c s' => if isWordChar c then S (wordRun s') else 0
  | EmptyString => 0
  end.

(** Backtracking: [\w+] gives characters back, one at a time and down to
    one, until the literal [Options ] follows. *)
Fixpoint backtrack (k : nat) (s : string) : option nat :=
  match k with
  | O => None
  | S k' => if startsWith "Options " (drop k s) then Some k else backtrack k' s
  end.

(** The match of the pattern at the start of [s], if any. *)
Definition matchAt (s : string) : option string :=
  k ← backtrack (wordRun s) s; Some (take (k + 8) s).

Fixpoint matchAllFrom (skip : nat) (s : string) : list string :=
  match skip with
  | S k =>
      match s with
      | EmptyString => []
      | String _ s' => matchAllFrom k s'
      end
  | O =>
      match matchAt s with
      | Some m =>
          m :: match s with
               | EmptyString => []
               | String _ s' => matchAllFrom (String.length m - 1) s'
               end
      | None =>
          match s with
          | EmptyString => []
          | String _ s' => matchAllFrom 0 s'
          end
      end
  end.

(** [[...s.matchAll(/\w+Options /g)].map(pickProperty(0))] *)
Definition matchAll (s : string) : list string := matchAllFrom 0 s.

End OptionsPattern.

(** ** The template of the generated module *)

Module Mustache.

(** Modelled from the spec: the template file [templates/builder.mustache]
    is not among the sources, and [mustache] is an external package. The
    spec describes a template with an exposed list-of-methods iteration
    variable and per-method name, comment and parameter-list fields; a
    template is therefore literal text and sections iterating over
    [methods], whose bodies are literal text and the three fields. The
    custom [escape] of [renderTemplate] returns its argument, so fields are
    inserted as they are. *)
Inductive Field := FieldName | FieldComment | FieldParameters.

Inductive StubPart :=
| StubText (text : string)
| StubField (field : Field).

Inductive Part :=
| ModuleText (text : string)
| EachMethod (stub : list StubPart).

Definition Template := list Part.

(** The buffer a rendering appends its pieces to. *)
Fixpoint buffer (pieces : list string) : string :=
  match pieces with
  | [] => EmptyString
  | piece :: rest => piece ++ buffer rest
  end.

Definition renderField (data : Method.TemplateData) (field : Field) : string :=
  match field with
  | FieldName => Method.td_name data
  | FieldComment => Method.td_comment data
  | FieldParameters => Method.td_parameters data
  end.

Definition renderStubPart (data : Method.TemplateData) (part : StubPart) : string :=
  match part with
  | StubText text => text
  | StubField field => renderField data field
  end.

Definition renderStub (stub : list StubPart) (data : Method.TemplateData) : string :=
  buffer (map (renderStubPart data) stub).

Definition renderPart (methods : list Method.TemplateData) (part : Part) : string :=
  match part with
  | ModuleText text => text
  | EachMethod stub => buffer (map (renderStub stub) methods)
  end.

(** [mustache.render(template, { methods }, undefined, { tags, escape })] *)
Definition render (template : Template) (methods : list Method.TemplateData) : string :=
  buffer (map (renderPart methods) template).

(** The number of method stubs a rendering instantiates. *)
Definition stubCount (template : Template) (methods : list Method.TemplateData) : nat :=
  list_sum (map (fun part =>
                   match part with
                   | ModuleText _ => 0
                   | EachMethod _ => length methods
                   end) template).

(** The text of the template outside its sections. *)
Definition moduleText (template : Template) : string :=
  buffer (omap (fun part =>
                  match part with
                  | ModuleText text => Some text
                  | EachMethod _ => None
                  end) template).

End Mustache.

(** ** The file system *)

Module fs.

(** The files on disk are a map from their names to their texts; an error
    of the file system is named by its code. *)

(** [fs.readFileSync(path, "utf-8")] *)
Definition readFileSync (files : gmap string string) (path : string) : completion string :=
  match files !! path with
  | Some text => Normal text
  | None => Throw "ENOENT"
  end.

(** [fs.writeFileSync(path, data, "utf-8")]; [writeError path] is the code
    of the error the file system answers a write to [path] with, if any: a
    missing directory, a refused access. *)
Definition writeFileSync (writeError : string → option string)
    (files : gmap string string) (path data : string) : completion (gmap string string) :=
  match writeError path with
  | Some code => Throw code
  | None => Normal (<[path := data]> files)
  end.

End fs.

(** A promise left to the event loop: the rest of an asynchronous call, run
    on the files as they are once the caller has returned. It settles by
    completing, with the files as it leaves them, or by rejecting. *)
Definition Promise := gmap string string → completion (gmap string string).

(** ** Class ProgramGenerator *)

Module ProgramGenerator.

Module config.
Definition dir : string := "node_modules/@sinclair/typebox/build/import/type/type".
Definition builders : list string := ["JavaScriptTypeBuilder"; "JsonTypeBuilder"].
Definition rootFiles : list string := [dir ++ "/json.d.mts"; dir ++ "/javascript.d.mts"].
(** [template], read when the class is defined. *)
Definition templatePath : string := "./templates/builder.mustache".
Definition template (files : gmap string string) : completion string :=
  fs.readFileSync files templatePath.
End config.

(** [isRootFileSource(source)] *)
Definition isRootFileSource (source : SourceFile) : bool :=
  utils.includes config.rootFiles (fileName source).

(** [isClassDeclaration(node)], a type guard: the node as a named class
    declaration when it is one. *)
Definition isClassDeclaration (node : Node) : option NamedClassDeclaration :=
  match node with
  | ClassDeclaration (Some name) elements =>
      Some {| class_name := name; members := elements |}
  | _ => None
  end.

(** [isBuilderClassDeclaration(classDecl)] *)
Definition isBuilderClassDeclaration (classDecl : NamedClassDeclaration) : bool :=
  utils.includes config.builders (class_name classDecl).

(** [ts.isMethodDeclaration] followed by [utils.hasProperty("name")]: the
    member as a named method declaration when it is one. *)
Definition isNamedMethodDeclaration (member : ClassElement) : option NamedMethodDeclaration :=
  match member with
  | MethodDeclaration (Some name) params =>
      Some {| method_name := name; parameters := params |}
  | _ => None
  end.

Record t := {
  builders : list NamedClassDeclaration;
  internalTypes : list string;
  methods : list Method.t;
  sources : list SourceFile;
}.

(** The initial value of the field [internalTypes]. *)
Definition seedTypes : list string :=
  [ "Static"; "TSchema"; "TMappedResult"; "TEnumKey"; "TEnumValue";
    "TTemplateLiteral"; "TMappedKey"; "TLiteralValue"; "TMappedFunction";
    "TMapped"; "TProperties"; "TIndexPropertyKeys"; "TTemplateLiteralKind" ].

(** The object once its field initialisers have run; [sourceFiles] is
    [tsProgram.getSourceFiles()]. *)
Definition fields (sourceFiles : list SourceFile) : t :=
  {| builders := [];
     internalTypes := seedTypes;
     methods := [];
     sources := filter (fun source => isRootFileSource source = true) sourceFiles |}.

(** [internalTypePattern], as the source of the pattern
    [new RegExp(internalTypes.join("|"), "g")]. *)
Definition internalTypePattern (this : t) : string :=
  join "|" (internalTypes this).

(** The body of the inner callback of [#fillBuilders]. *)
Definition visitNode (found : list NamedClassDeclaration) (node : Node)
  : list NamedClassDeclaration :=
  match isClassDeclaration node with
  | Some classDecl =>
      if isBuilderClassDeclaration classDecl then (found ++ [classDecl])%list else found
  | None => found
  end.

(** [#fillBuilders()] *)
Definition fillBuilders (this : t) : t :=
  {| builders :=
       fold_left (fun found source => fold_left visitNode (children source) found)
                 (sources this) (builders this);
     internalTypes := internalTypes this;
     methods := methods this;
     sources := sources this |}.

(** The variable [fullText] of [#fillOptionTypeNames]. *)
Definition fullTextOf (srcs : list SourceFile) : string :=
  fold_left (fun fullText source => fullText ++ (getFullText source ++ LF)) srcs EmptyString.

(** The tokens [#fillOptionTypeNames] pushes. *)
Definition optionTypeNames (srcs : list SourceFile) : list string :=
  utils.getUnique (map utils.trim (OptionsPattern.matchAll (fullTextOf srcs))).

(** [#fillOptionTypeNames()] *)
Definition fillOptionTypeNames (this : t) : t :=
  {| builders := builders this;
     internalTypes := (internalTypes this ++ optionTypeNames (sources this))%list;
     methods := methods this;
     sources := sources this |}.

(** The constant [rawMethods] of [#fillMethods]. *)
Definition rawMethodsOf (classes : list NamedClassDeclaration) : list NamedMethodDeclaration :=
  omap isNamedMethodDeclaration (concat (map members classes)).

(** [groupings[method.name]] spread into [addDeclarations], then
    [triggerInitTasks], for each method in turn. Spreading [undefined]
    throws a [TypeError], whose message is the engine's own. *)
Fixpoint attachDeclarations (groupings : gmap string (list NamedMethodDeclaration))
    (ms : list Method.t) : completion (list Method.t) :=
  match ms with
  | [] => Normal []
  | method :: rest =>
      match groupings !! Method.name method with
      | None => Throw "TypeError"
      | Some group =>
          rest' ← attachDeclarations groupings rest;
          Normal (Method.triggerInitTasks (Method.addDeclarations method group) :: rest')
      end
  end.

Section WithHost.
(** [String.prototype.localeCompare] in the locale of the host. *)
Variable localeCompare : string → string → Z.

(** [utils.compareAlphabetically] *)
Definition compareAlphabetically (a b : string) : Z := localeCompare a b.

(** The constant [names] of [#fillMethods]. *)
Definition methodNames (rawMethods : list NamedMethodDeclaration) : list string :=
  Array.sort compareAlphabetically (utils.getUnique (map method_name rawMethods)).

(** [#fillMethods()] *)
Definition fillMethods (this : t) : completion t :=
  let rawMethods := rawMethodsOf (builders this) in
  let names := methodNames rawMethods in
  let internalTypes' :=
    fold_left utils.pushIfAbsent (map (utils.addPrefix "T" "") names) (internalTypes this) in
  groupings ← groupBy method_name rawMethods;
  methods' ← attachDeclarations groupings (methods this ++ map Method.init names)%list;
  Normal {| builders := builders this;
            internalTypes := internalTypes';
            methods := methods';
            sources := sources this |}.

(** [new ProgramGenerator()], for the source files of the program. *)
Definition new (sourceFiles : list SourceFile) : completion t :=
  fillMethods (fillOptionTypeNames (fillBuilders (fields sourceFiles))).
End WithHost.

(** The loop of [patchType] over the matched tokens [items]. The
    replacement of a registered token that holds no [$] is the text
    itself. *)
Definition patchItems (this : t) (items : list string) (value : string) : string :=
  fold_left (fun patch item =>
               if utils.includes (internalTypes this) item
               then replaceAll item (utils.addPrefix "typebox" "." item) patch
               else patch) items value.

Section WithRegExp.
Variable hostMatchAll : string → string → completion (list string).

(** The constant [items] of [patchType]. *)
Definition matchedItems (this : t) (value : string) : completion (list string) :=
  matches ← RegExp.matchAll hostMatchAll (internalTypePattern this) value;
  Normal (utils.getUnique matches).

(** [patchType(value)] *)
Definition patchType (this : t) (value : string) : completion string :=
  items ← matchedItems this value;
  Normal (JsString.trim (patchItems this items value)).
End WithRegExp.

(** [renderTemplate({ methods: this.methods.map((m) => m.getTemplateData()) })]
    for a template already parsed, the constant [content] of
    [writeToFile]. *)
Definition content (template : Mustache.Template) (this : t) : string :=
  Mustache.render template (map Method.getTemplateData (methods this)).

Section WithLibraries.
(** The packages [mustache] and [prettier]: the parser of templates under
    the tags [<%] and [%>]; the options of the formatter, [{}] among them;
    [prettier.resolveConfig], which looks for a configuration on disk from
    the path upwards and gives [null] when there is none; and
    [prettier.format]. *)
Variable parseTemplate : string → completion Mustache.Template.
Variable PrettierOptions : Type.
Variable emptyOptions : PrettierOptions.
Variable resolveConfig : gmap string string → string → completion (option PrettierOptions).
Variable format : string → PrettierOptions → completion string.
Variable writeError : string → option string.

(** [ProgramGenerator.renderTemplate(replacements)] on the template text
    [config.template]. *)
Definition renderTemplate (templateText : string) (this : t) : completion string :=
  template ← parseTemplate templateText;
  Normal (content template this).

(** [writeToFile(path)], an asynchronous method: the call returns a promise
    at once; whatever the body throws rejects the promise. *)
Definition writeToFile (templateText : string) (this : t) (path : string) : Promise :=
  fun files =>
    content ← renderTemplate templateText this;
    options ← resolveConfig files path;
    formatted ← format content (default emptyOptions options);
    fs.writeFileSync writeError files path formatted.
End WithLibraries.

End ProgramGenerator.

(** ** scripts/generate/types.js *)

Module GenerateTypes.

Section WithHost.
(** The host of a run: the parser of TypeScript, which gives the top-level
    nodes of the text of a file; the names of the files the program loads,
    the root files and what they import; [localeCompare]; the packages
    [mustache] and [prettier]; and the errors of the file system. *)
Variable parse : string → list Node.
Variable programFiles : list string.
Variable localeCompare : string → string → Z.
Variable parseTemplate : string → completion Mustache.Template.
Variable PrettierOptions : Type.
Variable emptyOptions : PrettierOptions.
Variable resolveConfig : gmap string string → string → completion (option PrettierOptions).
Variable format : string → PrettierOptions → completion string.
Variable writeError : string → option string.

Definition loadSource (files : gmap string string) (name : string) : option SourceFile :=
  text ← files !! name;
  Some {| fileName := name; getFullText := text; children := parse text |}.

(** [ts.createProgram(rootFiles, {}).getSourceFiles()] over the files on
    disk. *)
Definition getSourceFiles (files : gmap string string) : list SourceFile :=
  omap (loadSource files) programFiles.

(** The action of the command, for the output path [path]
    ([./lib/builder.js] in the script) and the template text the class holds.
    It builds the generator and calls [writeToFile], whose promise it neither
    awaits nor returns: the action completes as soon as the generator is
    built and leaves the promise to the event loop. *)
Definition handle (templateText path : string) (files : gmap string string) : completion Promise :=
  generator ← ProgramGenerator.new localeCompare (getSourceFiles files);
  Normal (ProgramGenerator.writeToFile parseTemplate PrettierOptions emptyOptions resolveConfig
            format writeError templateText generator path).

(** A run of the script: loading [typebox.js] defines the class, which reads
    the template; the action runs; the event loop then runs the promise the
    action left. The run throws when the load or the action throws, and
    when the promise rejects, a rejection nothing handles. *)
Definition main (path : string) (files : gmap string string) : completion (gmap string string) :=
  templateText ← ProgramGenerator.config.template files;
  pending ← handle templateText path files;
  pending files.
End WithHost.

End GenerateTypes.

(** ** Notions the properties are stated with *)

(** In [l], the first occurrence of [x] comes before every occurrence of [y]. *)
Definition firstBefore {A} (x y : A) (l : list A) : Prop :=
  ∃ l1 l2, l = (l1 ++ x :: l2)%list ∧ (y ∉ l1) ∧ y ≠ x.

(** The declarations of the classes [classes] that go by the name [n]. *)
Definition overloadsOf (classes : list NamedClassDeclaration) (n : string)
  : list NamedMethodDeclaration :=
  filter (fun d => method_name d = n) (ProgramGenerator.rawMethodsOf classes).

(** The builder classes among the top-level nodes of the root sources, in the
    order of the sources, then of the nodes. *)
Definition builderClassesOf (sourceFiles : list SourceFile) : list NamedClassDeclaration :=
  concat (map (fun source =>
                 filter (fun c => ProgramGenerator.isBuilderClassDeclaration c = true)
                        (omap ProgramGenerator.isClassDeclaration (children source)))
              (filter (fun source => ProgramGenerator.isRootFileSource source = true) sourceFiles)).

(** No method of the classes goes by a name that a plain object inherits. *)
Definition plainNames (classes : list NamedClassDeclaration) : Prop :=
  Forall (fun d => method_name d ∉ Object.prototype_keys) (ProgramGenerator.rawMethodsOf classes).

(** The values an array takes while [f] adds the elements of [l] to it, one
    at a time, the starting value first. *)
Fixpoint statesAfter {A B} (f : A → B → A) (a : A) (l : list B) : list A :=
  a :: match l with
       | [] => []
       | x :: rest => statesAfter f (f a x) rest
       end.

(** The values the field [internalTypes] takes during a construction: the
    seeds, the array after the push of [#fillOptionTypeNames], then the array
    after each turn of the guarded push of [#fillMethods]. *)
Definition registryStates (localeCompare : string → string → Z)
    (sourceFiles : list SourceFile) : list (list string) :=
  let this := ProgramGenerator.fillOptionTypeNames
                (ProgramGenerator.fillBuilders (ProgramGenerator.fields sourceFiles)) in
  let names := ProgramGenerator.methodNames localeCompare
                 (ProgramGenerator.rawMethodsOf (ProgramGenerator.builders this)) in
  ProgramGenerator.seedTypes
  :: statesAfter utils.pushIfAbsent (ProgramGenerator.internalTypes this)
                 (map (utils.addPrefix "T" "") names).

(** The code unit [c] occurs in [s]. *)
Fixpoint occursIn (c : ascii) (s : string) : bool :=
  match s with
  | EmptyString => false
  | String d s' => if decide (c = d) then true else occursIn c s'
  end.

(** The code unit [b] occurs in every stretch [v] ends with. *)
Fixpoint inEverySuffix (b : ascii) (v : string) : bool :=
  match v with
  | EmptyString => true
  | String _ v' => occursIn b v && inEverySuffix b v'
  end.

(** A token the two growth passes can add starts with [T] or holds an [O]. *)
Definition grownToken (e : string) : Prop :=
  startsWith "T" e = true ∨ occursIn "O" e = true.

(** From no position of [s] on can a grown token be the match of the
    pattern: wherever the text starts with [T] or holds a further [O], some
    seed matches first. *)
Fixpoint seedsDecide (s : string) : bool :=
  (bool_decide (is_Some (List.find (fun t => startsWith t s) ProgramGenerator.seedTypes))
   || (negb (startsWith "T" s) && negb (occursIn "O" s)))
  && match s with
     | EmptyString => true
     | String _ s' => seedsDecide s'
     end.

(** A generator whose registry holds the seeds alone. *)
Definition seedGenerator : ProgramGenerator.t :=
  ProgramGenerator.fields [].

(** The tokens [patchType] goes through when no registered token holds a
    syntax character: the distinct matches of the registered tokens, taken
    as alternatives in the order of the registry. *)
Definition literalMatches (this : ProgramGenerator.t) (value : string) : list string :=
  utils.getUnique (JsString.matchAll (ProgramGenerator.internalTypes this) value).

(** What [patchType] returns then. *)
Definition literalPatch (this : ProgramGenerator.t) (value : string) : string :=
  JsString.trim (ProgramGenerator.patchItems this (literalMatches this value) value).

(** The names under which the builder classes of the root files declare a
    method, read off the nodes: [n] is the name of a named method of a
    top-level class that bears a configured name, in a file that is a root
    file. *)
Definition declaresMethod (sourceFiles : list SourceFile) (n : string) : Prop :=
  ∃ source className elements params,
    source ∈ sourceFiles
    ∧ fileName source ∈ ProgramGenerator.config.rootFiles
    ∧ ClassDeclaration (Some className) elements ∈ children source
    ∧ className ∈ ProgramGenerator.config.builders
    ∧ MethodDeclaration (Some n) params ∈ elements.

(** The texts of the named parameters of one overload, in their order. *)
Fixpoint namedParameters (params : list ParameterDeclaration) : list string :=
  match params with
  | [] => []
  | {| parameter_name := Some text |} :: rest => text :: namedParameters rest
  | {| parameter_name := None |} :: rest => namedParameters rest
  end.

(** The scan the specification describes: the overloads in discovery order,
    the named parameters of each in their order. *)
Fixpoint discoveryOrder (overloads : list NamedMethodDeclaration) : list string :=
  match overloads with
  | [] => []
  | overload :: rest => (namedParameters (parameters overload) ++ discoveryOrder rest)%list
  end.

(** ** Occurrences of tokens in a text *)

(** One of [a] and [b] starts with the other: both can match at one position
    of a text. *)
Definition comparable (a b : string) : bool := startsWith a b || startsWith b a.

(** [t] is comparable with no non-empty suffix of [v]: in a text where [v]
    stands, no occurrence of [t] begins inside [v], whether it ends inside
    [v] or runs past its end. *)
Fixpoint apart (t v : string) : bool :=
  match v with
  | EmptyString => true
  | String _ v' => negb (comparable t v) && apart t v'
  end.

(** No two distinct tokens of [items] can match at one position. *)
Definition exclusive (items : list string) : bool :=
  forallb (fun u => forallb (fun t => bool_decide (t = u) || negb (comparable t u)) items) items.

(** Some token of [items] occurs at the start of [s]. *)
Definition occursAt (items : list string) (s : string) : bool :=
  existsb (fun u => startsWith u s) items.

(** [v] is the rest of a token whose first character stands right before
    [r]. The text is followed for as long as it agrees with [v]: wherever a
    token of [items] occurs on the way, so that [p] is due there, what is
    left of [v] is found from there on neither in the text as it is nor in
    the text once [p] stands there. *)
Fixpoint keepsApart (p : string) (items : list string) (v r : string) : bool :=
  match v, r with
  | String d v', String e r' =>
      (negb (occursAt items r) || (negb (startsWith v r) && negb (comparable v p)))
      && (if decide (d = e) then keepsApart p items v' r' else true)
  | _, _ => true
  end.

(** In the text [s] the tokens [items] keep clear of one another and of the
    prefix [p] they receive: no occurrence of a token reaches over the start
    of an occurrence of a token, and putting [p] before an occurrence
    completes no token that began before it. *)
Fixpoint clearText (p : string) (items : list string) (s : string) : bool :=
  match s with
  | EmptyString => true
  | String c r =>
      forallb (fun t =>
                 match t with
                 | EmptyString => true
                 | String c' v => if decide (c' = c) then keepsApart p items v r else true
                 end) items
      && clearText p items r
  end.

(** No token of [items] is empty and none begins inside [p]. *)
Definition clearTokens (p : string) (items : list string) : bool :=
  forallb (fun t => negb (bool_decide (t = "")) && apart t p) items.

(** The prefixes due at the start of [s]: one [p] for each token of [items]
    the text starts with. *)
Fixpoint prefixesAt (p : string) (items : list string) (s : string) : string :=
  match items with
  | [] => EmptyString
  | t :: rest => (if startsWith t s then p else EmptyString) ++ prefixesAt p rest s
  end.

(** [s] with [p] put, once per token, before every position at which a
    token of [items] occurs. *)
Fixpoint qualifyAt (p : string) (items : list string) (s : string) : string :=
  match s with
  | EmptyString => EmptyString
  | String c s' => prefixesAt p items s ++ String c (qualifyAt p items s')
  end.

(** [s] with [p] put before every position at which some token of [items]
    occurs. *)
Fixpoint qualifyOccurrences (p : string) (items : list string) (s : string) : string :=
  match s with
  | EmptyString => EmptyString
  | String c s' =>
      (if existsb (fun t => startsWith t s) items then p else EmptyString)
      ++ String c (qualifyOccurrences p items s')
  end.

(** The patch as the specification words it: [typebox.] goes before the
    maximal runs of word characters that are registered tokens, and nowhere
    else. [boundary] tells that the previous character is no word
    character. *)
Fixpoint qualifyWords (registry : list string) (boundary : bool) (s : string) : string :=
  match s with
  | EmptyString => EmptyString
  | String c s' =>
      if OptionsPattern.isWordChar c then
        (if boundary
            && utils.includes registry (OptionsPattern.take (OptionsPattern.wordRun s) s)
         then "typebox." else EmptyString)
        ++ String c (qualifyWords registry false s')
      else String c (qualifyWords registry true s')
  end.

Definition qualifyWholeTokens (registry : list string) (s : string) : string :=
  JsString.trim (qualifyWords registry true s).

(** ** Sample inputs *)

Module Sample.

(** A comparison by code units, standing for [localeCompare] on the
    samples. *)
Definition codeUnitCompare (a b : string) : Z :=
  match String.compare a b with
  | Lt => (-1)%Z
  | Eq => 0%Z
  | Gt => 1%Z
  end.

Definition parameter (text : string) : ParameterDeclaration :=
  {| parameter_name := Some text |}.

(** The first root file: an import, then a builder class with a property
    and the method [Object(props)]. *)
Definition jsonSource : SourceFile :=
  {| fileName := "node_modules/@sinclair/typebox/build/import/type/type/json.d.mts";
     getFullText := "import { ObjectOptions } from '../object'; export declare class JsonTypeBuilder { readonly kind: string; Object(props: TProperties): TObject; }";
     children :=
       [ OtherNode;
         ClassDeclaration (Some "JsonTypeBuilder")
           [ OtherClassElement; MethodDeclaration (Some "Object") [parameter "props"] ] ] |}.

(** The second root file, with a builder class declaring
    [Object(props, options)] and [Number()]. *)
Definition javascriptSource : SourceFile :=
  {| fileName := "node_modules/@sinclair/typebox/build/import/type/type/javascript.d.mts";
     getFullText := "export declare class JavaScriptTypeBuilder extends JsonTypeBuilder { Object(props: TProperties, options?: ObjectOptions): TObject; Number(): TNumber; }";
     children :=
       [ ClassDeclaration (Some "JavaScriptTypeBuilder")
           [ MethodDeclaration (Some "Object") [parameter "props"; parameter "options"];
             MethodDeclaration (Some "Number") [] ] ] |}.

(** A root file whose only class is not a builder class. *)
Definition plainSource : SourceFile :=
  {| fileName := "node_modules/@sinclair/typebox/build/import/type/type/json.d.mts";
     getFullText := "export declare class Helper { Run(): void; }";
     children := [ ClassDeclaration (Some "Helper") [MethodDeclaration (Some "Run") []] ] |}.

(** A root file whose builder class declares a method [toString]. *)
Definition inheritedNameSource : SourceFile :=
  {| fileName := "node_modules/@sinclair/typebox/build/import/type/type/json.d.mts";
     getFullText := "export declare class JsonTypeBuilder { Number(): TNumber; toString(): string; }";
     children :=
       [ ClassDeclaration (Some "JsonTypeBuilder")
           [ MethodDeclaration (Some "Number") []; MethodDeclaration (Some "toString") [] ] ] |}.

(** The text of a template and the template it parses to. *)
Definition templateText : string :=
  "import * as typebox from '@sinclair/typebox';<%#methods%><%comment%>export function <%name%>(<%parameters%>) {}<%/methods%>".

Definition template : Mustache.Template :=
  [ Mustache.ModuleText "import * as typebox from '@sinclair/typebox';";
    Mustache.EachMethod
      [ Mustache.StubField Mustache.FieldComment;
        Mustache.StubText "export function ";
        Mustache.StubField Mustache.FieldName;
        Mustache.StubText "(";
        Mustache.StubField Mustache.FieldParameters;
        Mustache.StubText ") {}" ] ].

(** A parser of templates that knows the sample template; a text without an
    opening tag is a template made of that text. *)
Definition parseTemplate (text : string) : completion Mustache.Template :=
  if decide (text = templateText) then Normal template
  else match String.index 0 "<%" text with
       | Some _ => Throw "Error: a template outside the samples"
       | None => Normal [Mustache.ModuleText text]
       end.

(** The generator the constructor returns for the two sample root files. *)
Definition generator : ProgramGenerator.t :=
  Eval vm_compute in
    match ProgramGenerator.new codeUnitCompare [jsonSource; javascriptSource] with
    | Normal g => g
    | Throw _ => ProgramGenerator.fields []
    end.

(** An engine for the patterns that are no disjunction of literal texts; the
    registries of the samples never call on it. *)
Definition hostMatchAll (source value : string) : completion (list string) :=
  Throw "SyntaxError".

(** A parser that knows the texts of the two sample root files. *)
Definition parse (text : string) : list Node :=
  if decide (text = getFullText jsonSource) then children jsonSource
  else if decide (text = getFullText javascriptSource) then children javascriptSource
  else [].

(** The files on disk before a run: the two root files, the template and a
    stale output. *)
Definition disk : gmap string string :=
  {[ fileName jsonSource := getFullText jsonSource;
     fileName javascriptSource := getFullText javascriptSource;
     ProgramGenerator.config.templatePath := templateText;
     "./lib/builder.js" := "stale" ]}.



(** The options of a formatter that has one: the text it ends the content
    with, a line feed by default. The configuration is read from the file
    [.prettierrc]. *)
Definition resolveConfig (files : gmap string string) (path : string) : completion (option string) :=
  Normal (files !! ".prettierrc").

Definition format (content options : string) : completion string :=
  Normal (content ++ options).

(** A file system that accepts every write. *)
Definition writeError (path : string) : option string := None.

(** A file system that has no directory to write the output to. *)
Definition noDirectory (path : string) : option string := Some "ENOENT".

(** A formatter that rejects every content. *)
Definition rejectingFormat (content options : string) : completion string :=
  Throw "SyntaxError".

End Sample.

(** ** utils.js: the helpers the generator does not call *)

Module StringPrototype.

(** [s.indexOf(search)]: the position of the first occurrence, [-1] when
    there is none; [from] is the position of [s] in the whole text. *)
Fixpoint indexOfFrom (search s : string) (from : Z) : Z :=
  if startsWith search s then from
  else match s with
       | EmptyString => (-1)%Z
       | String _ s' => indexOfFrom search s' (from + 1)%Z
       end.

Definition indexOf (search s : string) : Z := indexOfFrom search s 0%Z.

(** [s.substring(start, end)]: both positions are clamped to the text, and
    swapped when the first is the larger. *)
Definition substring (s : string) (start end_ : Z) : string :=
  let len := Z.of_nat (String.length s) in
  let finalStart := Z.min (Z.max start 0) len in
  let finalEnd := Z.min (Z.max end_ 0) len in
  let from := Z.min finalStart finalEnd in
  let to := Z.max finalStart finalEnd in
  OptionsPattern.take (Z.to_nat (to - from)) (OptionsPattern.drop (Z.to_nat from) s).

End StringPrototype.

Module utilsMore.

(** [getValueSurroundedBy(startToken, endToken, value, includeTokens)] *)
Definition getValueSurroundedBy (startToken endToken value : string) (includeTokens : bool)
  : string :=
  let start := StringPrototype.indexOf startToken value in
  let end_ := StringPrototype.indexOf endToken value in
  if includeTokens then
    JsString.trim
      (StringPrototype.substring value start (end_ + Z.of_nat (String.length endToken))%Z)
  else
    JsString.trim
      (StringPrototype.substring value (start + Z.of_nat (String.length startToken))%Z end_).

(** The values of JavaScript, as far as the equalities tell them apart:
    [other a] is any value but [undefined], [NaN] and the two zeros, a
    number, a string, a boolean, [null] or an object, known by [a]. *)
Inductive JsValue (A : Type) : Type :=
| undefined
| NaN
| zero (negative : bool)
| other (a : A).
Arguments undefined {A}.
Arguments NaN {A}.
Arguments zero {A} negative.
Arguments other {A} a.

(** [a === b]: [NaN] equals nothing, itself included, and the two zeros
    equal one another. *)
Definition strictEquals {A} `{EqDecision A} (a b : JsValue A) : bool :=
  match a, b with
  | undefined, undefined => true
  | zero _, zero _ => true
  | other x, other y => bool_decide (x = y)
  | _, _ => false
  end.

(** [SameValueZero], the equality of [includes]: the strict equality but
    for [NaN], which equals itself. *)
Definition sameValueZero {A} `{EqDecision A} (a b : JsValue A) : bool :=
  match a, b with
  | NaN, NaN => true
  | _, _ => strictEquals a b
  end.

(** [target.includes(item)] *)
Definition includes {A} `{EqDecision A} (target : list (JsValue A)) (item : JsValue A) : bool :=
  existsb (sameValueZero item) target.

(** [areEquals(a, b)] *)
Definition areEquals {A} `{EqDecision A} (a b : JsValue A) : bool := strictEquals a b.

(** [isInArray(target, item)]: [find] gives the first element the item
    strictly equals, [undefined] when there is none, and the result tells
    whether what [find] gives is [undefined]. *)
Definition isInArray {A} `{EqDecision A} (target : list (JsValue A)) (item : JsValue A) : bool :=
  let inTarget := default undefined (List.find (areEquals item) target) in
  strictEquals inTarget undefined.

End utilsMore.

(** ** Further notions *)

(** [t] occurs in [s]. *)
Definition substringOf (t s : string) : Prop := ∃ a b, s = a ++ t ++ b.

(** Every code unit of [s] is white space. *)
Fixpoint allWhiteSpace (s : string) : bool :=
  match s with
  | EmptyString => true
  | String c s' => isWhiteSpace c && allWhiteSpace s'
  end.

(** Every code unit of [s] is a word character. *)
Fixpoint allWordChars (s : string) : bool :=
  match s with
  | EmptyString => true
  | String c s' => OptionsPattern.isWordChar c && allWordChars s'
  end.

(** [s] starts with white space. *)
Definition startsWhite (s : string) : bool :=
  match s with
  | EmptyString => false
  | String c _ => isWhiteSpace c
  end.

(** [s] ends with white space. *)
Fixpoint endsWhite (s : string) : bool :=
  match s with
  | EmptyString => false
  | String c EmptyString => isWhiteSpace c
  | String _ s' => endsWhite s'
  end.

(** The text made of the matches [fst] in turn, each followed by the
    stretch [snd] that separates it from the next. *)
Fixpoint weave (pieces : list (string * string)) : string :=
  match pieces with
  | [] => EmptyString
  | (m, gap) :: rest => m ++ gap ++ weave rest
  end.

(** [t] occurs in [s], decided. *)
Fixpoint occurs (t s : string) : bool :=
  startsWith t s
  || match s with
     | EmptyString => false
     | String _ s' => occurs t s'
     end.

(** * Properties *)

Example replaceAll_empty_pattern : replaceAll "" "X" "abc" = "XaXbXcX".
Proof. reflexivity. Qed.

Example replaceAll_overlap : replaceAll "aa" "b" "aaaaa" = "bba".
Proof. reflexivity. Qed.

Example matchAll_first_alternative :
  matchAll ["TMapped"; "TMappedResult"] "TMappedResult TMapped" = ["TMapped"; "TMapped"].
Proof. reflexivity. Qed.

Example trim_both_ends : JsString.trim "  a b  " = "a b".
Proof. reflexivity. Qed.

Example options_matches :
  OptionsPattern.matchAll "x: SchemaOptions = ObjectOptions; TOptionsOptions Options "
  = ["SchemaOptions "; "TOptionsOptions "].
Proof. reflexivity. Qed.

(** ** Strings *)

Lemma append_cons (c : ascii) (s t : string) : String c s ++ t = String c (s ++ t).
Proof. reflexivity. Qed.

Lemma append_empty_l (s : string) : "" ++ s = s.
Proof. reflexivity. Qed.

Lemma append_empty_r (s : string) : s ++ "" = s.
Proof. induction s as [|c s IH]; [reflexivity | by rewrite append_cons, IH]. Qed.

Lemma append_assoc (a b c : string) : (a ++ b) ++ c = a ++ (b ++ c).
Proof. induction a as [|x a IH]; [reflexivity | by rewrite !append_cons, IH]. Qed.

Lemma string_length_append (a b : string) :
  String.length (a ++ b) = (String.length a + String.length b)%nat.
Proof. induction a as [|c a IH]; [done|]. rewrite append_cons. cbn. by rewrite IH. Qed.

Lemma drop_append_length (a r : string) : OptionsPattern.drop (String.length a) (a ++ r) = r.
Proof. induction a as [|c a IH]; [by destruct r|]. by rewrite append_cons. Qed.

Lemma take_append_length (a r : string) : OptionsPattern.take (String.length a) (a ++ r) = a.
Proof.
  induction a as [|c a IH]; [by destruct r|]. rewrite append_cons. cbn. by rewrite IH.
Qed.

Lemma description_render_eq (d : string) : Jsdoc.description_render d = " * " ++ d.
Proof.
  unfold Jsdoc.description_render, replaceAll. simpl.
  by rewrite append_empty_r, !append_cons.
Qed.

(** ** The description of a method (C3) *)

(** C3, as the specification words it, fails: the description of the method
    [Object] is not the sentence with [a schema] and the name between
    backquotes. *)
Lemma C3_description_counterexample :
  Method.description (Method.init "Object") ≠ "Creates a schema for a `Object` type.".
Proof. discriminate. Qed.

(** C3, amended: a method of name [n], once its declarations are attached
    and its initialisation tasks have run, is described by the sentence
    [Creates an schema for a n type.], the name bare, and the documentation
    block is made of the opening line, that sentence after [ * ], an empty
    comment line and the closing line. *)
Theorem C3_description_in_comment (n : string) (decls : list NamedMethodDeclaration) :
  let m := Method.triggerInitTasks (Method.addDeclarations (Method.init n) decls) in
  Method.description m = "Creates an schema for a " ++ n ++ " type."
  ∧ Method.td_comment (Method.getTemplateData m)
    = "/**" ++ LF ++ " * " ++ Method.description m ++ LF ++ " *" ++ LF ++ " */".
Proof.
  split; [reflexivity|].
  cbn -[Jsdoc.description_render String.append].
  by rewrite description_render_eq.
Qed.

(** ** Guarded pushes and [getUnique] *)

Section PushIfAbsent.
Context {A : Type} `{EqDecision A}.
Implicit Types (arr l : list A) (x y : A).

Lemma includes_true arr x : utils.includes arr x = true ↔ x ∈ arr.
Proof. unfold utils.includes. apply bool_decide_eq_true. Qed.

Lemma includes_false arr x : utils.includes arr x = false ↔ x ∉ arr.
Proof. unfold utils.includes. apply bool_decide_eq_false. Qed.

Lemma pushIfAbsent_present arr x : x ∈ arr → utils.pushIfAbsent arr x = arr.
Proof. intros Hx. unfold utils.pushIfAbsent. by rewrite (proj2 (includes_true arr x) Hx). Qed.

Lemma pushIfAbsent_absent arr x : x ∉ arr → utils.pushIfAbsent arr x = (arr ++ [x])%list.
Proof. intros Hx. unfold utils.pushIfAbsent. by rewrite (proj2 (includes_false arr x) Hx). Qed.

Lemma pushAll_snoc l arr x :
  fold_left utils.pushIfAbsent (l ++ [x])%list arr
  = utils.pushIfAbsent (fold_left utils.pushIfAbsent l arr) x.
Proof. by rewrite fold_left_app. Qed.

Lemma pushIfAbsent_prefix arr x : arr `prefix_of` utils.pushIfAbsent arr x.
Proof.
  unfold utils.pushIfAbsent. destruct (utils.includes arr x); [done|].
  by apply prefix_app_r.
Qed.

Lemma pushAll_prefix l arr : arr `prefix_of` fold_left utils.pushIfAbsent l arr.
Proof.
  revert arr. induction l as [|x l IH]; intros arr; simpl; [done|].
  etrans; [apply (pushIfAbsent_prefix arr x) | apply IH].
Qed.

Lemma pushIfAbsent_elem arr x y : y ∈ utils.pushIfAbsent arr x ↔ y ∈ arr ∨ y = x.
Proof.
  unfold utils.pushIfAbsent. destruct (utils.includes arr x) eqn:Hin.
  - apply includes_true in Hin. split; [by left | intros [?| ->]; done].
  - rewrite elem_of_app, list_elem_of_singleton. done.
Qed.

Lemma pushAll_elem l arr y :
  y ∈ fold_left utils.pushIfAbsent l arr ↔ y ∈ arr ∨ y ∈ l.
Proof.
  revert arr. induction l as [|x l IH]; intros arr; simpl.
  - rewrite elem_of_nil. tauto.
  - rewrite IH, pushIfAbsent_elem, elem_of_cons. tauto.
Qed.

Lemma pushIfAbsent_NoDup arr x : NoDup arr → NoDup (utils.pushIfAbsent arr x).
Proof.
  intros Hnd. unfold utils.pushIfAbsent. destruct (utils.includes arr x) eqn:Hin; [done|].
  apply includes_false in Hin. apply NoDup_app. split_and!; [done| |apply NoDup_singleton].
  intros y Hy ->%list_elem_of_singleton. done.
Qed.

Lemma pushAll_NoDup l arr : NoDup arr → NoDup (fold_left utils.pushIfAbsent l arr).
Proof.
  revert arr. induction l as [|x l IH]; intros arr Hnd; simpl; [done|].
  by apply IH, pushIfAbsent_NoDup.
Qed.

(** Pushing tokens that are all present changes nothing. *)
Lemma pushAll_present l arr : l ⊆ arr → fold_left utils.pushIfAbsent l arr = arr.
Proof.
  induction l as [|x l IH]; intros Hsub; simpl; [done|].
  rewrite pushIfAbsent_present by (apply Hsub; left).
  apply IH. intros y Hy. apply Hsub. by right.
Qed.

Lemma pushAll_idempotent l arr :
  fold_left utils.pushIfAbsent l (fold_left utils.pushIfAbsent l arr)
  = fold_left utils.pushIfAbsent l arr.
Proof. apply pushAll_present. intros y Hy. apply pushAll_elem. by right. Qed.

Lemma getUnique_NoDup l : NoDup (utils.getUnique l).
Proof. apply pushAll_NoDup, NoDup_nil_2. Qed.

Lemma getUnique_elem l y : y ∈ utils.getUnique l ↔ y ∈ l.
Proof. unfold utils.getUnique. rewrite pushAll_elem, elem_of_nil. tauto. Qed.

Lemma getUnique_snoc l x :
  utils.getUnique (l ++ [x])%list = utils.pushIfAbsent (utils.getUnique l) x.
Proof. apply pushAll_snoc. Qed.
End PushIfAbsent.

(** ** The merged parameter names (C5) *)

Section FirstBefore.
Context {A : Type} `{EqDecision A}.
Implicit Types (l : list A) (x y a : A).

Lemma firstBefore_nil x y : ¬ firstBefore x y [].
Proof. intros (l1 & l2 & Heq & _). by destruct l1. Qed.

Lemma firstBefore_snoc l x y a :
  firstBefore x y (l ++ [a])%list ↔ firstBefore x y l ∨ (x = a ∧ (y ∉ l) ∧ y ≠ a).
Proof.
  split.
  - intros (l1 & l2 & Heq & Hy & Hne).
    destruct l2 as [|b l2 _] using rev_ind.
    + apply app_inj_tail in Heq as [-> ->]. by right.
    + change (l1 ++ x :: l2 ++ [b])%list with (l1 ++ (x :: l2) ++ [b])%list in Heq.
      rewrite app_assoc in Heq. apply app_inj_tail in Heq as [-> ->].
      left. by exists l1, l2.
  - intros [(l1 & l2 & -> & Hy & Hne) | (-> & Hy & Hne)].
    + exists l1, (l2 ++ [a])%list. by rewrite <- app_assoc.
    + by exists l, [].
Qed.

Lemma getUnique_firstBefore l x y :
  firstBefore x y (utils.getUnique l) ↔ firstBefore x y l.
Proof.
  induction l as [|a l IH] using rev_ind.
  - done.
  - rewrite getUnique_snoc, (firstBefore_snoc l).
    destruct (decide (a ∈ l)) as [Hin|Hin].
    + rewrite pushIfAbsent_present by by apply getUnique_elem.
      rewrite IH. split; [by left | intros [?|(-> & Hy & Hne)]; [done|]].
      apply list_elem_of_split in Hin as (l1 & l2 & ->).
      exists l1, l2. split_and!; [done| |done].
      intros ?. apply Hy. apply elem_of_app. by left.
    + rewrite pushIfAbsent_absent by by rewrite getUnique_elem.
      rewrite firstBefore_snoc, IH, getUnique_elem. done.
Qed.
End FirstBefore.

Lemma namedParameters_omap (params : list ParameterDeclaration) :
  omap parameter_name params = namedParameters params.
Proof.
  induction params as [|[[text|]] params IH]; cbn [omap list_omap namedParameters];
    by rewrite ?IH.
Qed.

Lemma parameterTexts_discoveryOrder (decls : list NamedMethodDeclaration) :
  Method.parameterTexts decls = discoveryOrder decls.
Proof.
  unfold Method.parameterTexts. induction decls as [|d decls IH]; [done|].
  cbn [map concat discoveryOrder]. by rewrite omap_app, IH, namedParameters_omap.
Qed.

Lemma elem_of_namedParameters (params : list ParameterDeclaration) (x : string) :
  x ∈ namedParameters params ↔ ∃ prm, prm ∈ params ∧ parameter_name prm = Some x.
Proof.
  rewrite <- namedParameters_omap, list_elem_of_omap. done.
Qed.

Lemma elem_of_discoveryOrder (decls : list NamedMethodDeclaration) (x : string) :
  x ∈ discoveryOrder decls
  ↔ ∃ d prm, d ∈ decls ∧ prm ∈ parameters d ∧ parameter_name prm = Some x.
Proof.
  induction decls as [|d decls IH]; cbn [discoveryOrder].
  - split; [by intros ?%elem_of_nil | by intros (? & ? & ?%elem_of_nil & _)].
  - rewrite elem_of_app, IH, elem_of_namedParameters. split.
    + intros [(prm & Hprm & Hx) | (d' & prm & Hd & Hprm & Hx)].
      * exists d, prm. split_and!; [by left|done|done].
      * exists d', prm. split_and!; [by right|done|done].
    + intros (d' & prm & [->|Hd]%elem_of_cons & Hprm & Hx).
      * left. by exists prm.
      * right. by exists d', prm.
Qed.

(** C5: the merge of a method built from the overloads [decls] lists no
    text twice; it holds a text exactly when some parameter of some overload
    bears it as its name; it orders the texts as their first occurrences are
    ordered in the scan of the overloads in discovery order, each overload
    parameter by parameter; and running the merge again changes nothing. *)
Theorem C5_merged_parameter_names (n : string) (decls : list NamedMethodDeclaration) :
  let m := Method.triggerInitTasks (Method.addDeclarations (Method.init n) decls) in
  let names := Method.parameters_names m in
  NoDup names
  ∧ (∀ x, x ∈ names ↔ ∃ d prm, d ∈ decls ∧ prm ∈ parameters d ∧ parameter_name prm = Some x)
  ∧ (∀ x y, firstBefore x y names ↔ firstBefore x y (discoveryOrder decls))
  ∧ Method.triggerInitTasks m = m.
Proof.
  cbn zeta. unfold Method.triggerInitTasks, Method.step1_addParametersNames. cbn.
  fold (utils.getUnique (Method.parameterTexts decls)).
  split_and!.
  - apply getUnique_NoDup.
  - intros x. rewrite <- elem_of_discoveryOrder, <- parameterTexts_discoveryOrder.
    apply getUnique_elem.
  - intros x y. rewrite <- parameterTexts_discoveryOrder. apply getUnique_firstBefore.
  - f_equal. apply pushAll_present. intros x Hx. by apply getUnique_elem.
Qed.

(** ** The stable sort *)

Section SortFacts.
Context {A : Type} (compare : A → A → Z).
Implicit Types (l : list A) (x y : A).

Lemma insert_Permutation x l : Array.insert compare x l ≡ₚ x :: l.
Proof.
  induction l as [|y l IH]; simpl; [done|].
  case_decide; [done|]. rewrite IH. apply Permutation_swap.
Qed.

Lemma sort_Permutation l : Array.sort compare l ≡ₚ l.
Proof.
  induction l as [|x l IH]; simpl; [done|].
  by rewrite insert_Permutation, IH.
Qed.

Lemma sort_elem l x : x ∈ Array.sort compare l ↔ x ∈ l.
Proof. by rewrite sort_Permutation. Qed.

Lemma sort_NoDup l : NoDup l → NoDup (Array.sort compare l).
Proof. by rewrite sort_Permutation. Qed.

Hypothesis compare_total : ∀ x y, (compare x y ≤ 0)%Z ∨ (compare y x ≤ 0)%Z.

Lemma insert_HdRel x y l :
  Array.ranksBefore compare y x → HdRel (Array.ranksBefore compare) y l → HdRel (Array.ranksBefore compare) y (Array.insert compare x l).
Proof.
  intros Hyx Hhd. destruct l as [|z l]; simpl; [by constructor|].
  case_decide; constructor; [done|]. by inversion Hhd.
Qed.

Lemma insert_Sorted x l :
  Sorted (Array.ranksBefore compare) l → Sorted (Array.ranksBefore compare) (Array.insert compare x l).
Proof.
  induction 1 as [|y l Hsorted IH Hhd]; simpl.
  - by repeat constructor.
  - case_decide as Hxy.
    + constructor; [by constructor | by constructor].
    + constructor; [done|]. apply insert_HdRel; [|done].
      destruct (compare_total x y); [done|done].
Qed.

Lemma sort_Sorted l : Sorted (Array.ranksBefore compare) (Array.sort compare l).
Proof. induction l as [|x l IH]; simpl; [constructor | by apply insert_Sorted]. Qed.
End SortFacts.

(** ** Grouping *)

Section GroupByFacts.
Context {T : Type} (selector : T → string).
Implicit Types (ret : gmap string (list T)) (l : list T).

Lemma groupBy_loop_Normal ret l :
  Forall (fun e => selector e ∉ Object.prototype_keys) l →
  ∃ ret', groupBy_loop selector ret l = Normal ret'
    ∧ ∀ k, ret' !! k =
           match filter (fun e => selector e = k) l with
           | [] => ret !! k
           | es => Some (default [] (ret !! k) ++ es)%list
           end.
Proof.
  intros Hkeys. revert ret. induction Hkeys as [|e l He _ IH]; intros ret.
  - by exists ret.
  - cbn [groupBy_loop]. unfold groupBy_step.
    rewrite (proj2 (includes_false _ _) He). cbn [mbind completion_bind].
    destruct (IH (<[selector e := (default [] (ret !! selector e) ++ [e])%list]> ret))
      as (ret' & -> & Hret').
    exists ret'. split; [done|]. intros k. rewrite Hret'.
    rewrite filter_cons. destruct (decide (selector e = k)) as [<-|Hne].
    + rewrite lookup_insert_eq. simpl.
      destruct (filter _ l); simpl; [done | by rewrite <- app_assoc].
    + by rewrite lookup_insert_ne.
Qed.

Lemma groupBy_loop_Throw ret l :
  Exists (fun e => selector e ∈ Object.prototype_keys) l →
  groupBy_loop selector ret l = Throw "TypeError: arr.push is not a function".
Proof.
  intros Hex. revert ret. induction l as [|e l IH]; intros ret; [by inversion Hex|].
  cbn [groupBy_loop]. unfold groupBy_step.
  destruct (utils.includes Object.prototype_keys (selector e)) eqn:Hin; [done|].
  apply includes_false in Hin. cbn [mbind completion_bind].
  inversion Hex; subst; [done|]. by apply IH.
Qed.

Lemma groupBy_Normal l :
  Forall (fun e => selector e ∉ Object.prototype_keys) l →
  ∃ groupings, groupBy selector l = Normal groupings
    ∧ ∀ k, groupings !! k =
           match filter (fun e => selector e = k) l with
           | [] => None
           | es => Some es
           end.
Proof.
  intros Hkeys. destruct (groupBy_loop_Normal ∅ l Hkeys) as (ret' & Heq & Hret').
  exists ret'. split; [done|]. intros k. rewrite Hret', lookup_empty. done.
Qed.
End GroupByFacts.

(** ** The constructor *)

Lemma visitNodes_eq (nodes : list Node) (found : list NamedClassDeclaration) :
  fold_left ProgramGenerator.visitNode nodes found
  = (found ++ filter (fun c => ProgramGenerator.isBuilderClassDeclaration c = true)
                     (omap ProgramGenerator.isClassDeclaration nodes))%list.
Proof.
  revert found. induction nodes as [|node nodes IH]; intros found; simpl.
  - by rewrite app_nil_r.
  - rewrite IH. unfold ProgramGenerator.visitNode.
    destruct (ProgramGenerator.isClassDeclaration node) as [c|]; [|done].
    rewrite filter_cons.
    destruct (ProgramGenerator.isBuilderClassDeclaration c) eqn:Hc.
    + rewrite decide_True by done. by rewrite <- app_assoc.
    + rewrite decide_False by congruence. done.
Qed.

Lemma fillBuilders_builders (sourceFiles : list SourceFile) :
  ProgramGenerator.builders (ProgramGenerator.fillBuilders (ProgramGenerator.fields sourceFiles))
  = builderClassesOf sourceFiles.
Proof.
  unfold builderClassesOf. cbn.
  generalize (filter (fun source => ProgramGenerator.isRootFileSource source = true) sourceFiles).
  intros srcs. change (concat _) with ([] ++ concat
    (map (fun source => filter (fun c => ProgramGenerator.isBuilderClassDeclaration c = true)
                          (omap ProgramGenerator.isClassDeclaration (children source))) srcs))%list.
  generalize (@nil NamedClassDeclaration). induction srcs as [|source srcs IH]; intros found; simpl.
  - by rewrite app_nil_r.
  - rewrite IH, visitNodes_eq. by rewrite <- app_assoc.
Qed.

Lemma attachDeclarations_init (groupings : gmap string (list NamedMethodDeclaration))
    (group : string → list NamedMethodDeclaration) (names : list string) :
  (∀ n, n ∈ names → groupings !! n = Some (group n)) →
  ProgramGenerator.attachDeclarations groupings (map Method.init names)
  = Normal (map (fun n => Method.triggerInitTasks
                            (Method.addDeclarations (Method.init n) (group n))) names).
Proof.
  induction names as [|n names IH]; intros Hgroups; [done|].
  cbn [map ProgramGenerator.attachDeclarations]. cbn [Method.init Method.new Method.name].
  rewrite (Hgroups n) by left.
  rewrite IH by (intros k Hk; apply Hgroups; by right). done.
Qed.

Lemma attachDeclarations_missing (groupings : gmap string (list NamedMethodDeclaration))
    (ms : list Method.t) :
  Exists (fun m => groupings !! Method.name m = None) ms →
  ∃ e, ProgramGenerator.attachDeclarations groupings ms = Throw e.
Proof.
  induction 1 as [m ms Hm | m ms _ [e IH]]; cbn [ProgramGenerator.attachDeclarations].
  - rewrite Hm. by eexists.
  - destruct (groupings !! Method.name m); [|by eexists].
    rewrite IH. by eexists.
Qed.

Section Constructor.
Variable localeCompare : string → string → Z.

Lemma methodNames_elem (raw : list NamedMethodDeclaration) (n : string) :
  n ∈ ProgramGenerator.methodNames localeCompare raw ↔ ∃ d, d ∈ raw ∧ method_name d = n.
Proof.
  unfold ProgramGenerator.methodNames.
  rewrite sort_elem, getUnique_elem, list_elem_of_fmap.
  split; [intros (d & -> & Hd); by exists d | intros (d & Hd & <-); by exists d].
Qed.

(** What the constructor returns when no method name is inherited by plain
    objects. *)
Lemma new_Normal (sourceFiles : list SourceFile) :
  let classes := builderClassesOf sourceFiles in
  let this := ProgramGenerator.fillOptionTypeNames
                (ProgramGenerator.fillBuilders (ProgramGenerator.fields sourceFiles)) in
  let names := ProgramGenerator.methodNames localeCompare (ProgramGenerator.rawMethodsOf classes) in
  plainNames classes →
  ProgramGenerator.new localeCompare sourceFiles
  = Normal {| ProgramGenerator.builders := classes;
              ProgramGenerator.internalTypes :=
                fold_left utils.pushIfAbsent (map (utils.addPrefix "T" "") names)
                          (ProgramGenerator.internalTypes this);
              ProgramGenerator.methods :=
                map (fun n => Method.triggerInitTasks
                                (Method.addDeclarations (Method.init n) (overloadsOf classes n)))
                    names;
              ProgramGenerator.sources := ProgramGenerator.sources this |}.
Proof.
  intros classes this names Hplain.
  unfold ProgramGenerator.new, ProgramGenerator.fillMethods. fold this.
  assert (ProgramGenerator.builders this = classes) as ->
    by apply fillBuilders_builders.
  destruct (groupBy_Normal method_name _ Hplain) as (groupings & -> & Hgroupings).
  cbn [mbind completion_bind]. fold names.
  change (ProgramGenerator.methods this) with (@nil Method.t). rewrite app_nil_l.
  rewrite (attachDeclarations_init groupings (overloadsOf classes)); [done|].
  intros n (d & Hd & Hn)%methodNames_elem. rewrite Hgroupings.
  unfold overloadsOf.
  assert (d ∈ filter (fun d => method_name d = n) (ProgramGenerator.rawMethodsOf classes))
    as Hin by by apply list_elem_of_filter.
  destruct (filter _ _); [by apply elem_of_nil in Hin | done].
Qed.

(** Otherwise [groupBy] throws and there is no generator. *)
Lemma new_Throw (sourceFiles : list SourceFile) :
  ¬ plainNames (builderClassesOf sourceFiles) →
  ProgramGenerator.new localeCompare sourceFiles = Throw "TypeError: arr.push is not a function".
Proof.
  intros Hnot. unfold ProgramGenerator.new, ProgramGenerator.fillMethods.
  assert (ProgramGenerator.builders
            (ProgramGenerator.fillOptionTypeNames
               (ProgramGenerator.fillBuilders (ProgramGenerator.fields sourceFiles)))
          = builderClassesOf sourceFiles) as -> by apply fillBuilders_builders.
  unfold groupBy. rewrite groupBy_loop_Throw; [done|].
  apply (not_Forall_Exists _) in Hnot.
  eapply Exists_impl; [exact Hnot|]. intros d Hd. by apply dec_stable.
Qed.
End Constructor.

(** ** The methods collection (C4, C6, C9) *)

Lemma codeUnitCompare_total (a b : string) :
  (Sample.codeUnitCompare a b ≤ 0)%Z ∨ (Sample.codeUnitCompare b a ≤ 0)%Z.
Proof.
  unfold Sample.codeUnitCompare. rewrite (String.compare_antisym a b).
  destruct (String.compare b a); simpl; lia.
Qed.

Lemma samples_plainNames :
  plainNames (builderClassesOf [Sample.jsonSource; Sample.javascriptSource]).
Proof. repeat constructor; by apply includes_false. Qed.

Lemma elem_of_concat {A} (ls : list (list A)) (x : A) :
  x ∈ concat ls ↔ ∃ l, x ∈ l ∧ l ∈ ls.
Proof.
  induction ls as [|l ls IH]; cbn [concat].
  - split; [by intros ?%elem_of_nil | by intros (l & _ & ?%elem_of_nil)].
  - rewrite elem_of_app, IH. split.
    + intros [Hx|(l' & Hx & Hl')]; [exists l; split; [done|by left]|].
      exists l'. split; [done | by right].
    + intros (l' & Hx & [->|Hl']%elem_of_cons); [by left|]. right. by exists l'.
Qed.

Lemma isClassDeclaration_Some (node : Node) (c : NamedClassDeclaration) :
  ProgramGenerator.isClassDeclaration node = Some c
  ↔ node = ClassDeclaration (Some (class_name c)) (members c).
Proof.
  destruct c as [n ms]. unfold ProgramGenerator.isClassDeclaration.
  destruct node as [[name|] elements|]; cbn; split; intros Heq; by simplify_eq.
Qed.

Lemma elem_of_builderClassesOf (sourceFiles : list SourceFile) (c : NamedClassDeclaration) :
  c ∈ builderClassesOf sourceFiles
  ↔ ∃ source, source ∈ sourceFiles
      ∧ fileName source ∈ ProgramGenerator.config.rootFiles
      ∧ ClassDeclaration (Some (class_name c)) (members c) ∈ children source
      ∧ class_name c ∈ ProgramGenerator.config.builders.
Proof.
  unfold builderClassesOf. rewrite elem_of_concat. split.
  - intros (l & Hc & Hl). apply list_elem_of_fmap in Hl as (source & -> & Hsource).
    apply list_elem_of_filter in Hsource as [Hroot Hsource].
    apply list_elem_of_filter in Hc as [Hbuilder Hc].
    apply list_elem_of_omap in Hc as (node & Hnode & Hclass).
    exists source. split_and!; [done| | |].
    + by apply includes_true.
    + by apply isClassDeclaration_Some in Hclass as <-.
    + by apply includes_true in Hbuilder.
  - intros (source & Hsource & Hroot & Hnode & Hname).
    eexists. split; [|apply list_elem_of_fmap; exists source; split; [reflexivity|]].
    + apply list_elem_of_filter. split; [by apply includes_true|].
      apply list_elem_of_omap. eexists. split; [exact Hnode|]. by apply isClassDeclaration_Some.
    + apply list_elem_of_filter. split; [by apply includes_true | done].
Qed.

Lemma isNamedMethodDeclaration_Some (member : ClassElement) (d : NamedMethodDeclaration) :
  ProgramGenerator.isNamedMethodDeclaration member = Some d
  ↔ member = MethodDeclaration (Some (method_name d)) (parameters d).
Proof.
  destruct d as [n ps]. unfold ProgramGenerator.isNamedMethodDeclaration.
  destruct member as [[name|] params|]; cbn; split; intros Heq; by simplify_eq.
Qed.

(** The names of the constant [rawMethods] are the names the builder classes
    of the root files declare a method under. *)
Lemma declaresMethod_rawMethods (sourceFiles : list SourceFile) (n : string) :
  (∃ d, d ∈ ProgramGenerator.rawMethodsOf (builderClassesOf sourceFiles) ∧ method_name d = n)
  ↔ declaresMethod sourceFiles n.
Proof.
  unfold ProgramGenerator.rawMethodsOf, declaresMethod. split.
  - intros (d & Hd & <-). apply list_elem_of_omap in Hd as (member & Hmember & Hnamed).
    apply elem_of_concat in Hmember as (l & Hmember & Hl).
    apply list_elem_of_fmap in Hl as (c & -> & Hc).
    apply elem_of_builderClassesOf in Hc as (source & Hsource & Hroot & Hnode & Hname).
    apply isNamedMethodDeclaration_Some in Hnamed as ->.
    by exists source, (class_name c), (members c), (parameters d).
  - intros (source & className & elements & params & Hsource & Hroot & Hnode & Hname & Hmember).
    exists {| method_name := n; parameters := params |}. split; [|done].
    apply list_elem_of_omap. exists (MethodDeclaration (Some n) params). split; [|done].
    apply elem_of_concat. exists elements. split; [done|].
    apply list_elem_of_fmap. exists {| class_name := className; members := elements |}.
    split; [done|]. apply elem_of_builderClassesOf. by exists source.
Qed.

(** C6 fails where a builder class declares a method under a name every
    plain object inherits: the sample class declares [Number] and
    [toString], and whatever the comparison of the host, the constructor
    throws in [groupBy] and leaves no methods collection at all. *)
Theorem C6_inherited_name_aborts (localeCompare : string → string → Z) :
  declaresMethod [Sample.inheritedNameSource] "Number"
  ∧ declaresMethod [Sample.inheritedNameSource] "toString"
  ∧ ProgramGenerator.new localeCompare [Sample.inheritedNameSource]
    = Throw "TypeError: arr.push is not a function".
Proof.
  split_and!.
  - exists Sample.inheritedNameSource, "JsonTypeBuilder",
      [MethodDeclaration (Some "Number") []; MethodDeclaration (Some "toString") []], [].
    split_and!; [by left | by apply includes_true | by left | by apply includes_true | by left].
  - exists Sample.inheritedNameSource, "JsonTypeBuilder",
      [MethodDeclaration (Some "Number") []; MethodDeclaration (Some "toString") []], [].
    split_and!; [by left | by apply includes_true | by left | by apply includes_true
                | right; by left].
  - apply new_Throw. unfold plainNames. rewrite Forall_forall. intros Hall.
    apply (Hall {| method_name := "toString"; parameters := [] |}).
    + cbn. right. by left.
    + by apply includes_true.
Qed.

Example sample_run :
  ∃ g, ProgramGenerator.new Sample.codeUnitCompare [Sample.jsonSource; Sample.javascriptSource]
       = Normal g
    ∧ map Method.name (ProgramGenerator.methods g) = ["Number"; "Object"]
    ∧ map Method.parameters_names (ProgramGenerator.methods g) = [[]; ["props"; "options"]]
    ∧ ProgramGenerator.internalTypes g
      = (ProgramGenerator.seedTypes ++ ["ObjectOptions"; "TNumber"; "TObject"])%list.
Proof. eexists. split; [vm_compute; reflexivity|]. by vm_compute. Qed.



Lemma render_no_method (template : Mustache.Template) :
  Mustache.render template [] = Mustache.moduleText template.
Proof.
  unfold Mustache.render, Mustache.moduleText.
  induction template as [|[text|stub] template IH]; [done| |].
  - cbn. by f_equal.
  - cbn. exact IH.
Qed.

Lemma stubCount_no_method (template : Mustache.Template) :
  Mustache.stubCount template [] = 0.
Proof.
  unfold Mustache.stubCount.
  induction template as [|[text|stub] template IH]; simpl; done.
Qed.

(** C9: when no class declaration of the root sources is a builder class, the
    constructor completes, the builders and the methods collections are
    empty, and the rendering is the text of the template outside its method
    sections, with no stub. *)
Theorem C9_no_builder_class (localeCompare : string → string → Z)
    (template : Mustache.Template) (sourceFiles : list SourceFile) :
  (∀ source node classDecl,
      source ∈ sourceFiles → ProgramGenerator.isRootFileSource source = true →
      node ∈ children source → ProgramGenerator.isClassDeclaration node = Some classDecl →
      ProgramGenerator.isBuilderClassDeclaration classDecl = false) →
  ∃ g, ProgramGenerator.new localeCompare sourceFiles = Normal g
    ∧ ProgramGenerator.builders g = []
    ∧ ProgramGenerator.methods g = []
    ∧ ProgramGenerator.content template g = Mustache.moduleText template
    ∧ Mustache.stubCount template (map Method.getTemplateData (ProgramGenerator.methods g)) = 0.
Proof.
  intros Hnone.
  assert (builderClassesOf sourceFiles = []) as Hclasses.
  { unfold builderClassesOf.
    induction sourceFiles as [|source rest IH]; [done|].
    rewrite filter_cons.
    specialize (IH (fun s node c Hs => Hnone s node c (list_elem_of_further _ _ _ Hs))).
    case_decide as Hroot; [|exact IH].
    cbn [map concat]. rewrite IH, app_nil_r.
    apply elem_of_nil_inv. intros c [Hc Hin]%list_elem_of_filter.
    apply list_elem_of_omap in Hin as (node & Hnode & Hnamed).
    rewrite (Hnone source node c) in Hc; [done|by left|done|done|done]. }
  eexists. split.
  { apply new_Normal. rewrite Hclasses. constructor. }
  rewrite Hclasses. unfold ProgramGenerator.content.
  cbn [ProgramGenerator.methods ProgramGenerator.builders ProgramGenerator.rawMethodsOf].
  split_and!; [done|done|apply render_no_method|apply stubCount_no_method].
Qed.

Lemma C9_no_builder_class_witness :
  (∀ source node classDecl,
      source ∈ [Sample.plainSource] → ProgramGenerator.isRootFileSource source = true →
      node ∈ children source → ProgramGenerator.isClassDeclaration node = Some classDecl →
      ProgramGenerator.isBuilderClassDeclaration classDecl = false)
  ∧ ∃ g, ProgramGenerator.new Sample.codeUnitCompare [Sample.plainSource] = Normal g
      ∧ ProgramGenerator.builders g = []
      ∧ ProgramGenerator.methods g = []
      ∧ ProgramGenerator.content Sample.template g = Mustache.moduleText Sample.template
      ∧ Mustache.stubCount Sample.template
          (map Method.getTemplateData (ProgramGenerator.methods g)) = 0.
Proof.
  assert (∀ source node classDecl,
      source ∈ [Sample.plainSource] → ProgramGenerator.isRootFileSource source = true →
      node ∈ children source → ProgramGenerator.isClassDeclaration node = Some classDecl →
      ProgramGenerator.isBuilderClassDeclaration classDecl = false) as Hnone.
  { intros source node c ->%list_elem_of_singleton _ ->%list_elem_of_singleton [= <-].
    reflexivity. }
  split; [exact Hnone|].
  exact (C9_no_builder_class Sample.codeUnitCompare Sample.template [Sample.plainSource] Hnone).
Defined.

(** ** The tokens of the pattern [/\w+Options /g] *)

Lemma wordChar_not_whiteSpace (c : ascii) :
  OptionsPattern.isWordChar c = true → isWhiteSpace c = false.
Proof. destruct c as [[] [] [] [] [] [] [] []]; vm_compute; congruence. Qed.

Lemma trimEnd_append (a b : string) :
  trimEnd b ≠ "" → trimEnd (a ++ b) = a ++ trimEnd b.
Proof.
  intros Hb. induction a as [|c a IH]; [done|].
  rewrite !append_cons. cbn [trimEnd]. rewrite IH.
  destruct a as [|d a]; [|by rewrite append_cons].
  rewrite append_empty_l. by destruct (trimEnd b).
Qed.

Lemma startsWith_take (t s : string) :
  startsWith t s = true → OptionsPattern.take (String.length t) s = t.
Proof.
  revert s. induction t as [|a t IH]; intros [|b s] Hst; try done.
  cbn in Hst. case_decide as Hab; [subst b|done].
  cbn. by rewrite IH.
Qed.

Lemma take_add (k n : nat) (s : string) :
  OptionsPattern.take (k + n) s
  = OptionsPattern.take k s ++ OptionsPattern.take n (OptionsPattern.drop k s).
Proof.
  revert s. induction k as [|k IH]; intros s.
  - by destruct s.
  - destruct s as [|c s]; [by destruct n|]. cbn. by rewrite append_cons, IH.
Qed.

Lemma backtrack_Some (n k : nat) (s : string) :
  OptionsPattern.backtrack n s = Some k →
  (1 ≤ k ≤ n)%nat ∧ startsWith "Options " (OptionsPattern.drop k s) = true.
Proof.
  induction n as [|n IH]; [done|]. cbn [OptionsPattern.backtrack].
  destruct (startsWith "Options " (OptionsPattern.drop (S n) s)) eqn:Hst.
  - intros [= <-]. split; [lia|done].
  - intros Hk. destruct (IH Hk) as [? ?]. split; [lia|done].
Qed.

Lemma matchAt_Some (s m : string) :
  OptionsPattern.matchAt s = Some m →
  ∃ c w, OptionsPattern.isWordChar c = true ∧ m = String c w ++ "Options ".
Proof.
  unfold OptionsPattern.matchAt.
  destruct (OptionsPattern.backtrack (OptionsPattern.wordRun s) s) as [k|] eqn:Hk; [|done].
  intros [= <-]. apply backtrack_Some in Hk as [[Hk1 Hk2] Hst].
  rewrite take_add. apply startsWith_take in Hst. cbn [String.length] in Hst. rewrite Hst.
  destruct s as [|c s]; [cbn in Hk2; lia|]. cbn [OptionsPattern.wordRun] in Hk2.
  destruct (OptionsPattern.isWordChar c) eqn:Hc; [|lia].
  destruct k as [|k]; [lia|]. by exists c, (OptionsPattern.take k s).
Qed.

Lemma options_matchAllFrom_elem (skip : nat) (s m : string) :
  m ∈ OptionsPattern.matchAllFrom skip s → ∃ s', OptionsPattern.matchAt s' = Some m.
Proof.
  revert skip. induction s as [|c s IH]; intros skip.
  - destruct skip as [|skip]; cbn [OptionsPattern.matchAllFrom]; [|by intros ?%elem_of_nil].
    destruct (OptionsPattern.matchAt "") as [m'|] eqn:Hm; [|by intros ?%elem_of_nil].
    intros [->|?%elem_of_nil]%elem_of_cons; [by exists ""|done].
  - destruct skip as [|skip]; cbn [OptionsPattern.matchAllFrom]; [|apply IH].
    destruct (OptionsPattern.matchAt (String c s)) as [m'|] eqn:Hm; [|apply IH].
    intros [->|Hin]%elem_of_cons; [by exists (String c s) | by eapply IH].
Qed.

(** A token pushed by [#fillOptionTypeNames] is a word that ends in
    [Options], with at least one character before. *)
Lemma optionTypeNames_shape (srcs : list SourceFile) (x : string) :
  x ∈ ProgramGenerator.optionTypeNames srcs → ∃ c w, x = String c w ++ "Options".
Proof.
  unfold ProgramGenerator.optionTypeNames. rewrite getUnique_elem, list_elem_of_fmap.
  intros (m & -> & (s' & Hm)%options_matchAllFrom_elem).
  apply matchAt_Some in Hm as (c & w & Hc & ->).
  exists c, w. unfold utils.trim, JsString.trim.
  rewrite append_cons. cbn [trimStart]. rewrite (wordChar_not_whiteSpace c Hc).
  rewrite <- append_cons. by rewrite trimEnd_append.
Qed.

Lemma occursIn_append (c : ascii) (a b : string) :
  occursIn c (a ++ b) = occursIn c a || occursIn c b.
Proof.
  induction a as [|d a IH]; [done|]. rewrite append_cons. cbn [occursIn].
  by case_decide.
Qed.

Lemma optionTypeNames_fresh (srcs : list SourceFile) (x : string) :
  x ∈ ProgramGenerator.optionTypeNames srcs → x ∉ ProgramGenerator.seedTypes.
Proof.
  intros (c & w & ->)%optionTypeNames_shape Hseed.
  assert (occursIn "O" (String c w ++ "Options") = true) as HO
    by (rewrite occursIn_append; apply orb_true_r).
  assert (Forall (fun seed => occursIn "O" seed = false) ProgramGenerator.seedTypes) as Hseeds
    by (repeat constructor).
  rewrite Forall_forall in Hseeds. rewrite (Hseeds _ Hseed) in HO. done.
Qed.

(** ** The growth of the registry (C7) *)

Lemma seedTypes_NoDup : NoDup ProgramGenerator.seedTypes.
Proof. apply (bool_decide_unpack _). by vm_compute. Qed.

Lemma statesAfter_pushIfAbsent (arr : list string) (tokens : list string) (base : list string) :
  base `prefix_of` arr → NoDup arr →
  ∀ i s, statesAfter utils.pushIfAbsent arr tokens !! i = Some s →
    base `prefix_of` s ∧ NoDup s
    ∧ ∀ s', statesAfter utils.pushIfAbsent arr tokens !! S i = Some s' → s `prefix_of` s'.
Proof.
  revert arr. induction tokens as [|x tokens IH]; intros arr Hbase Hnd i s Hi.
  - destruct i as [|i]; [|done]. injection Hi as <-. by split_and!.
  - destruct i as [|i].
    + injection Hi as <-. split_and!; [done|done|].
      intros s' Hs'. cbn in Hs'. destruct tokens; injection Hs' as <-; apply pushIfAbsent_prefix.
    + apply (IH (utils.pushIfAbsent arr x)); [|by apply pushIfAbsent_NoDup|exact Hi].
      etrans; [exact Hbase | apply pushIfAbsent_prefix].
Qed.

Lemma statesAfter_head {A B} (f : A → B → A) (a : A) (l : list B) :
  statesAfter f a l !! 0%nat = Some a.
Proof. by destruct l. Qed.

Lemma statesAfter_last {A B} (f : A → B → A) (a : A) (l : list B) :
  last (statesAfter f a l) = Some (fold_left f l a).
Proof.
  revert a. induction l as [|x l IH]; intros a; [done|].
  cbn [statesAfter fold_left]. rewrite <- IH. by destruct l.
Qed.

(** C7: along a construction the registry only grows. Every state starts
    with the seeds and holds no token twice; each state is a prefix of the
    next; a guarded push of a token already present changes nothing; the
    tokens of the Options pass are none of the seeds; and the last state is
    the registry of the generator. *)
Theorem C7_registry_grows (localeCompare : string → string → Z)
    (sourceFiles : list SourceFile) :
  let states := registryStates localeCompare sourceFiles in
  let roots := ProgramGenerator.sources (ProgramGenerator.fields sourceFiles) in
  (∀ i s, states !! i = Some s → ProgramGenerator.seedTypes `prefix_of` s ∧ NoDup s)
  ∧ (∀ i s s', states !! i = Some s → states !! S i = Some s' → s `prefix_of` s')
  ∧ (∀ (arr : list string) x, x ∈ arr → utils.pushIfAbsent arr x = arr)
  ∧ (∀ x, x ∈ ProgramGenerator.optionTypeNames roots → x ∉ ProgramGenerator.seedTypes)
  ∧ (∀ g, ProgramGenerator.new localeCompare sourceFiles = Normal g →
          last states = Some (ProgramGenerator.internalTypes g)).
Proof.
  intros states roots.
  set (this := ProgramGenerator.fillOptionTypeNames
                 (ProgramGenerator.fillBuilders (ProgramGenerator.fields sourceFiles))).
  set (tokens := map (utils.addPrefix "T" "")
                   (ProgramGenerator.methodNames localeCompare
                      (ProgramGenerator.rawMethodsOf (ProgramGenerator.builders this)))).
  assert (ProgramGenerator.internalTypes this
          = (ProgramGenerator.seedTypes ++ ProgramGenerator.optionTypeNames roots)%list)
    as Hregistry by done.
  assert (NoDup (ProgramGenerator.internalTypes this)) as Hnd.
  { rewrite Hregistry. apply NoDup_app. split_and!.
    - apply seedTypes_NoDup.
    - intros x Hseed Hx. by apply (optionTypeNames_fresh roots x).
    - apply getUnique_NoDup. }
  assert (ProgramGenerator.seedTypes `prefix_of` ProgramGenerator.internalTypes this) as Hpre
    by (rewrite Hregistry; by apply prefix_app_r).
  pose proof (statesAfter_pushIfAbsent (ProgramGenerator.internalTypes this) tokens
                ProgramGenerator.seedTypes Hpre Hnd) as Hstates.
  assert (states = ProgramGenerator.seedTypes
                   :: statesAfter utils.pushIfAbsent (ProgramGenerator.internalTypes this) tokens)
    as -> by done.
  split_and!.
  - intros [|i] s Hs.
    + injection Hs as <-. split; [done | apply seedTypes_NoDup].
    + destruct (Hstates i s Hs) as (? & ? & _). done.
  - intros [|i] s s' Hs Hs'.
    + injection Hs as <-. change (statesAfter utils.pushIfAbsent
        (ProgramGenerator.internalTypes this) tokens !! 0%nat = Some s') in Hs'.
      rewrite statesAfter_head in Hs'. by injection Hs' as <-.
    + destruct (Hstates i s Hs) as (_ & _ & Hnext). by apply Hnext.
  - intros arr x. apply pushIfAbsent_present.
  - apply optionTypeNames_fresh.
  - intros g Hg.
    rewrite last_cons, statesAfter_last.
    unfold ProgramGenerator.new, ProgramGenerator.fillMethods in Hg. fold this in Hg.
    destruct (groupBy method_name _) as [groupings|]; [|done].
    cbn [mbind completion_bind] in Hg.
    destruct (ProgramGenerator.attachDeclarations _ _) as [ms|]; [|done].
    cbn [mbind completion_bind] in Hg. by injection Hg as <-.
Qed.

(** ** Patching under a grown registry *)

Lemma pushAll_shape {A} `{EqDecision A} (l arr : list A) :
  ∃ extra, fold_left utils.pushIfAbsent l arr = (arr ++ extra)%list ∧ extra ⊆ l.
Proof.
  revert arr. induction l as [|x l IH]; intros arr; cbn [fold_left].
  - exists []. by rewrite app_nil_r.
  - destruct (IH (utils.pushIfAbsent arr x)) as (extra & -> & Hsub).
    unfold utils.pushIfAbsent. destruct (utils.includes arr x).
    + exists extra. split; [done|]. intros y Hy. right. by apply Hsub.
    + exists (x :: extra). rewrite <- app_assoc. split; [done|].
      intros y [->|Hy]%elem_of_cons; [by left | right; by apply Hsub].
Qed.

Lemma new_internalTypes (localeCompare : string → string → Z)
    (sourceFiles : list SourceFile) (g : ProgramGenerator.t) :
  ProgramGenerator.new localeCompare sourceFiles = Normal g →
  ∃ extra, ProgramGenerator.internalTypes g = (ProgramGenerator.seedTypes ++ extra)%list
         ∧ Forall grownToken extra.
Proof.
  intros Hg. unfold ProgramGenerator.new, ProgramGenerator.fillMethods in Hg.
  destruct (groupBy method_name _) as [groupings|]; [|done].
  cbn [mbind completion_bind] in Hg.
  destruct (ProgramGenerator.attachDeclarations _ _) as [ms|]; [|done].
  cbn [mbind completion_bind] in Hg. injection Hg as <-.
  cbn [ProgramGenerator.internalTypes].
  set (roots := ProgramGenerator.sources (ProgramGenerator.fields sourceFiles)).
  change (ProgramGenerator.internalTypes
            (ProgramGenerator.fillOptionTypeNames
               (ProgramGenerator.fillBuilders (ProgramGenerator.fields sourceFiles))))
    with (ProgramGenerator.seedTypes ++ ProgramGenerator.optionTypeNames roots)%list.
  match goal with
  | |- context [fold_left utils.pushIfAbsent ?l ?arr] =>
      destruct (pushAll_shape l arr) as (added & -> & Hadded)
  end.
  exists (ProgramGenerator.optionTypeNames roots ++ added)%list.
  split; [reflexivity|].
  apply Forall_app. split; apply Forall_forall.
  - intros x (c & w & ->)%optionTypeNames_shape. right.
    rewrite occursIn_append. apply orb_true_r.
  - intros x Hx. apply Hadded in Hx. apply list_elem_of_fmap in Hx as (n & -> & _). by left.
Qed.

Lemma startsWith_occursIn (c : ascii) (e r : string) :
  startsWith e r = true → occursIn c e = true → occursIn c r = true.
Proof.
  revert r. induction e as [|a e IH]; intros [|b r] Hst Hc; try done.
  cbn in Hst. case_decide as Hab; [subst b|done].
  cbn in *. case_decide; [done | by apply IH].
Qed.

Lemma startsWith_trans (a e r : string) :
  startsWith a e = true → startsWith e r = true → startsWith a r = true.
Proof.
  revert e r. induction a as [|x a IH]; intros [|y e] [|z r] Hae Her; try done.
  cbn in *. repeat case_decide; subst; try done. by eapply IH.
Qed.

Lemma find_app_l {A} (f : A → bool) (l1 l2 : list A) :
  List.find f (l1 ++ l2)%list
  = match List.find f l1 with Some x => Some x | None => List.find f l2 end.
Proof. induction l1 as [|x l1 IH]; [done|]. cbn. by destruct (f x). Qed.

Lemma find_none_Forall {A} (f : A → bool) (l : list A) :
  Forall (fun x => f x = false) l → List.find f l = None.
Proof. induction 1 as [|x l Hx _ IH]; [done|]. cbn. by rewrite Hx. Qed.

Lemma find_elem {A} (f : A → bool) (l : list A) (x : A) :
  List.find f l = Some x → x ∈ l.
Proof.
  induction l as [|y l IH]; [done|]. cbn. destruct (f y).
  - intros [= ->]. by left.
  - intros Hx. right. by apply IH.
Qed.

Lemma matchAllFrom_elem (alts : list string) (skip : nat) (s m : string) :
  m ∈ matchAllFrom alts skip s → m ∈ alts.
Proof.
  revert skip. induction s as [|c s IH]; intros skip.
  - destruct skip as [|skip]; cbn [matchAllFrom]; [|by intros ?%elem_of_nil].
    destruct (List.find _ alts) as [t|] eqn:Ht; [|by intros ?%elem_of_nil].
    intros [->|?%elem_of_nil]%elem_of_cons; [by eapply find_elem|done].
  - destruct skip as [|skip]; cbn [matchAllFrom]; [|apply IH].
    destruct (List.find _ alts) as [t|] eqn:Ht; [|apply IH].
    intros [->|Hin]%elem_of_cons; [by eapply find_elem | by eapply IH].
Qed.

(** ** Patterns that are disjunctions of literal texts *)

Lemma literal_no_bar (t : string) : RegExp.literal t = true → occursIn "|" t = false.
Proof.
  induction t as [|c t IH]; [done|]. cbn [RegExp.literal occursIn].
  intros [Hc Ht]%andb_true_iff. case_decide as Hbar; [subst c; done | by apply IH].
Qed.

Lemma alternatives_append (t r : string) :
  occursIn "|" t = false →
  RegExp.alternatives (t ++ String "|" r) = t :: RegExp.alternatives r.
Proof.
  induction t as [|c t IH]; [done|]. cbn [occursIn]. case_decide as Hbar; [done|].
  intros Ht. rewrite append_cons. cbn [RegExp.alternatives].
  rewrite decide_False by congruence. by rewrite IH.
Qed.

Lemma alternatives_no_bar (t : string) :
  occursIn "|" t = false → RegExp.alternatives t = [t].
Proof.
  induction t as [|c t IH]; [done|]. cbn [occursIn]. case_decide as Hbar; [done|].
  intros Ht. cbn [RegExp.alternatives]. rewrite decide_False by congruence. by rewrite IH.
Qed.

Lemma alternatives_join (tokens : list string) :
  tokens ≠ [] → Forall (fun t => occursIn "|" t = false) tokens →
  RegExp.alternatives (join "|" tokens) = tokens.
Proof.
  intros Hne Hall. induction Hall as [|t tokens Ht Hall IH]; [done|].
  destruct tokens as [|u tokens]; [by apply alternatives_no_bar|].
  change (join "|" (t :: u :: tokens)) with (t ++ String "|" (join "|" (u :: tokens))).
  rewrite alternatives_append by done. by rewrite IH.
Qed.

(** On a registry of literal tokens the pattern is the disjunction of the
    tokens, in their order. *)
Lemma matchAll_literal (hostMatchAll : string → string → completion (list string))
    (tokens : list string) (value : string) :
  tokens ≠ [] → Forall (fun t => RegExp.literal t = true) tokens →
  RegExp.matchAll hostMatchAll (join "|" tokens) value
  = Normal (JsString.matchAll tokens value).
Proof.
  intros Hne Hall. unfold RegExp.matchAll.
  rewrite alternatives_join; [|done|].
  - by rewrite (proj2 (forallb_forall _ _))
      by (intros t Ht%list_elem_of_In; by apply (proj1 (Forall_forall _ _) Hall)).
  - eapply Forall_impl; [exact Hall|]. apply literal_no_bar.
Qed.

Lemma matchedItems_literal (hostMatchAll : string → string → completion (list string))
    (g : ProgramGenerator.t) (s : string) :
  ProgramGenerator.internalTypes g ≠ [] →
  Forall (fun t => RegExp.literal t = true) (ProgramGenerator.internalTypes g) →
  ProgramGenerator.matchedItems hostMatchAll g s = Normal (literalMatches g s).
Proof.
  intros Hne Hall. unfold ProgramGenerator.matchedItems, ProgramGenerator.internalTypePattern.
  by rewrite matchAll_literal.
Qed.

Lemma patchType_literal (hostMatchAll : string → string → completion (list string))
    (g : ProgramGenerator.t) (s : string) :
  ProgramGenerator.internalTypes g ≠ [] →
  Forall (fun t => RegExp.literal t = true) (ProgramGenerator.internalTypes g) →
  ProgramGenerator.patchType hostMatchAll g s = Normal (literalPatch g s).
Proof.
  intros Hne Hall. unfold ProgramGenerator.patchType.
  by rewrite matchedItems_literal.
Qed.

(** The registry of a generator the constructor returns is not empty. *)
Lemma new_internalTypes_nonempty (localeCompare : string → string → Z)
    (sourceFiles : list SourceFile) (g : ProgramGenerator.t) :
  ProgramGenerator.new localeCompare sourceFiles = Normal g →
  ProgramGenerator.internalTypes g ≠ [].
Proof. intros (extra & -> & _)%new_internalTypes. done. Qed.

Section GrownRegistry.
Variable extra : list string.
Hypothesis extra_grown : Forall grownToken extra.

Lemma find_seeds_first (s : string) :
  seedsDecide s = true →
  List.find (fun t => startsWith t s) (ProgramGenerator.seedTypes ++ extra)%list
  = List.find (fun t => startsWith t s) ProgramGenerator.seedTypes.
Proof.
  intros Hs. rewrite find_app_l.
  destruct (List.find _ ProgramGenerator.seedTypes) as [t|] eqn:Hseed; [done|].
  apply find_none_Forall. eapply Forall_impl; [exact extra_grown|].
  intros e He. destruct (startsWith e s) eqn:Hes; [exfalso|done].
  assert (negb (startsWith "T" s) && negb (occursIn "O" s) = true) as Hinert.
  { destruct s; cbn [seedsDecide] in Hs; rewrite Hseed in Hs;
      apply andb_true_iff in Hs as [Hs _];
      (apply orb_true_iff in Hs as [Hs|Hs]; [|done]);
      apply bool_decide_eq_true in Hs; by destruct Hs. }
  apply andb_true_iff in Hinert as [HT HO].
  destruct He as [He|He].
  - by rewrite (startsWith_trans "T" e s He Hes) in HT.
  - by rewrite (startsWith_occursIn "O" e s Hes He) in HO.
Qed.

Lemma seedsDecide_tail (c : ascii) (s : string) :
  seedsDecide (String c s) = true → seedsDecide s = true.
Proof. cbn [seedsDecide]. by intros [_ ?]%andb_true_iff. Qed.

Lemma matchAllFrom_seeds (skip : nat) (s : string) :
  seedsDecide s = true →
  matchAllFrom (ProgramGenerator.seedTypes ++ extra)%list skip s
  = matchAllFrom ProgramGenerator.seedTypes skip s.
Proof.
  revert skip. induction s as [|c s IH]; intros skip Hs.
  - destruct skip; cbn [matchAllFrom]; [|done]. by rewrite find_seeds_first.
  - pose proof (seedsDecide_tail c s Hs) as Hs'.
    destruct skip; cbn [matchAllFrom]; [|by apply IH].
    rewrite find_seeds_first by done.
    destruct (List.find _ ProgramGenerator.seedTypes); by rewrite IH.
Qed.

Lemma patchItems_seeds (g : ProgramGenerator.t) (items : list string) (value : string) :
  ProgramGenerator.internalTypes g = (ProgramGenerator.seedTypes ++ extra)%list →
  (∀ item, item ∈ items → item ∈ ProgramGenerator.seedTypes) →
  ProgramGenerator.patchItems g items value
  = ProgramGenerator.patchItems seedGenerator items value.
Proof.
  intros Hregistry. unfold ProgramGenerator.patchItems. rewrite Hregistry.
  change (ProgramGenerator.internalTypes seedGenerator) with ProgramGenerator.seedTypes.
  revert value. induction items as [|item items IH]; intros value Hitems; [done|].
  cbn [fold_left].
  assert (item ∈ ProgramGenerator.seedTypes) as Hitem by (apply Hitems; left).
  rewrite (proj2 (includes_true ProgramGenerator.seedTypes item) Hitem).
  rewrite (proj2 (includes_true (ProgramGenerator.seedTypes ++ extra)%list item))
    by (apply elem_of_app; by left).
  apply IH. intros y Hy. apply Hitems. by right.
Qed.

Lemma literalMatches_seeds (g : ProgramGenerator.t) (s : string) :
  ProgramGenerator.internalTypes g = (ProgramGenerator.seedTypes ++ extra)%list →
  seedsDecide s = true →
  literalMatches g s = literalMatches seedGenerator s.
Proof.
  intros Hregistry Hs. unfold literalMatches. rewrite Hregistry.
  change (ProgramGenerator.internalTypes seedGenerator) with ProgramGenerator.seedTypes.
  unfold matchAll. f_equal. by apply matchAllFrom_seeds.
Qed.

(** Where the seeds decide every match, a grown registry patches as the
    seeds alone do. *)
Lemma literalPatch_seeds (g : ProgramGenerator.t) (s : string) :
  ProgramGenerator.internalTypes g = (ProgramGenerator.seedTypes ++ extra)%list →
  seedsDecide s = true →
  literalPatch g s = literalPatch seedGenerator s.
Proof.
  intros Hregistry Hs. unfold literalPatch.
  rewrite (literalMatches_seeds g s Hregistry Hs). f_equal.
  apply patchItems_seeds; [done|]. intros item Hitem.
  apply (proj1 (getUnique_elem _ _)) in Hitem.
  exact (matchAllFrom_elem ProgramGenerator.seedTypes 0 s item Hitem).
Qed.
End GrownRegistry.

(** ** [patchType] is not idempotent (C10) *)

(** C10: on every generator the constructor returns whose registered
    tokens hold no syntax character of patterns, patching [TSchema] gives
    [typebox.TSchema], and patching that output qualifies the token again:
    for the input [TSchema], patching twice is not patching once. *)
Theorem C10_patchType_not_idempotent (hostMatchAll : string → string → completion (list string))
    (localeCompare : string → string → Z)
    (sourceFiles : list SourceFile) (g : ProgramGenerator.t) :
  ProgramGenerator.new localeCompare sourceFiles = Normal g →
  Forall (fun t => RegExp.literal t = true) (ProgramGenerator.internalTypes g) →
  ProgramGenerator.patchType hostMatchAll g "TSchema" = Normal "typebox.TSchema"
  ∧ (once ← ProgramGenerator.patchType hostMatchAll g "TSchema";
     ProgramGenerator.patchType hostMatchAll g once) = Normal "typebox.typebox.TSchema"
  ∧ (once ← ProgramGenerator.patchType hostMatchAll g "TSchema";
     ProgramGenerator.patchType hostMatchAll g once)
    ≠ ProgramGenerator.patchType hostMatchAll g "TSchema".
Proof.
  intros Hnew Hliteral.
  pose proof (new_internalTypes_nonempty _ _ _ Hnew) as Hne.
  apply new_internalTypes in Hnew as (extra & Hregistry & Hgrown).
  assert (ProgramGenerator.patchType hostMatchAll g "TSchema" = Normal "typebox.TSchema")
    as Hone.
  { rewrite patchType_literal by done.
    by rewrite (literalPatch_seeds extra Hgrown g "TSchema" Hregistry). }
  rewrite Hone. cbn [mbind completion_bind].
  assert (ProgramGenerator.patchType hostMatchAll g "typebox.TSchema"
          = Normal "typebox.typebox.TSchema") as ->.
  { rewrite patchType_literal by done.
    by rewrite (literalPatch_seeds extra Hgrown g "typebox.TSchema" Hregistry). }
  done.
Qed.

Lemma sample_generator_new :
  ProgramGenerator.new Sample.codeUnitCompare [Sample.jsonSource; Sample.javascriptSource]
  = Normal Sample.generator.
Proof. vm_compute. reflexivity. Qed.

Lemma sample_generator_literal :
  Forall (fun t => RegExp.literal t = true) (ProgramGenerator.internalTypes Sample.generator).
Proof. apply Forall_forall. intros t Ht. repeat (apply elem_of_cons in Ht as [->|Ht]; [done|]). by apply elem_of_nil in Ht. Qed.

Lemma C10_patchType_not_idempotent_witness :
  ProgramGenerator.new Sample.codeUnitCompare [Sample.jsonSource; Sample.javascriptSource]
  = Normal Sample.generator
  ∧ Forall (fun t => RegExp.literal t = true) (ProgramGenerator.internalTypes Sample.generator)
  ∧ ProgramGenerator.patchType Sample.hostMatchAll Sample.generator "TSchema"
    = Normal "typebox.TSchema"
  ∧ (once ← ProgramGenerator.patchType Sample.hostMatchAll Sample.generator "TSchema";
     ProgramGenerator.patchType Sample.hostMatchAll Sample.generator once)
    = Normal "typebox.typebox.TSchema"
  ∧ (once ← ProgramGenerator.patchType Sample.hostMatchAll Sample.generator "TSchema";
     ProgramGenerator.patchType Sample.hostMatchAll Sample.generator once)
    ≠ ProgramGenerator.patchType Sample.hostMatchAll Sample.generator "TSchema".
Proof.
  split; [exact sample_generator_new|]. split; [exact sample_generator_literal|].
  exact (C10_patchType_not_idempotent Sample.hostMatchAll Sample.codeUnitCompare
           [Sample.jsonSource; Sample.javascriptSource] Sample.generator
           sample_generator_new sample_generator_literal).
Defined.

(** ** Running the pipeline again (C8) *)

Section Rerun.
Variable parse : string → list Node.
Variable programFiles : list string.
Variable localeCompare : string → string → Z.
Variable parseTemplate : string → completion Mustache.Template.
Variable PrettierOptions : Type.
Variable emptyOptions : PrettierOptions.
Variable resolveConfig : gmap string string → string → completion (option PrettierOptions).
Variable format : string → PrettierOptions → completion string.
Variable writeError : string → option string.





End Rerun.





(** ** Replacing all occurrences of a token *)

Lemma startsWith_comparable (a b r : string) :
  startsWith a r = true → startsWith b r = true → comparable a b = true.
Proof.
  unfold comparable. revert b r. induction a as [|x a IH]; intros [|y b] [|z r] Ha Hb; try done.
  cbn in *. repeat case_decide; subst; try done. by eapply IH.
Qed.

Lemma startsWith_append (a r : string) : startsWith a (a ++ r) = true.
Proof. induction a as [|x a IH]; [done|]. rewrite append_cons. cbn. by rewrite decide_True. Qed.

Lemma startsWith_cons (t : string) (c : ascii) (s : string) :
  startsWith t (String c s) = true → t ≠ "" → ∃ v, t = String c v ∧ startsWith v s = true.
Proof.
  destruct t as [|a v]; [done|]. cbn. case_decide; [subst|done]. intros Hv _. by exists v.
Qed.

Lemma apart_cons (t : string) (c : ascii) (v : string) :
  apart t (String c v) = true → comparable t (String c v) = false ∧ apart t v = true.
Proof. cbn [apart]. intros [?%negb_true_iff ?]%andb_true_iff. done. Qed.

Lemma prefixesAt_none (p : string) (items : list string) (s : string) :
  Forall (fun t => startsWith t s = false) items → prefixesAt p items s = "".
Proof. induction 1 as [|t items Ht _ IH]; [done|]. cbn [prefixesAt]. by rewrite Ht, IH. Qed.

Lemma qualifyAt_nil (p s : string) : qualifyAt p [] s = s.
Proof. induction s as [|c s IH]; [done|]. cbn [qualifyAt prefixesAt]. by rewrite IH. Qed.

Lemma drop_length_le (n : nat) (s : string) :
  (String.length (OptionsPattern.drop n s) ≤ String.length s)%nat.
Proof.
  revert s. induction n as [|n IH]; intros [|c s]; cbn; try lia.
  specialize (IH s). lia.
Qed.

Lemma replaceAllFrom_skip (pat rep : string) (n : nat) (s : string) :
  pat ≠ "" → replaceAllFrom pat rep n s = replaceAllFrom pat rep 0 (OptionsPattern.drop n s).
Proof.
  intros Hpat. revert s. induction n as [|n IH]; intros s.
  - by destruct s.
  - destruct s as [|c s]; [|apply IH]. by destruct pat.
Qed.

Lemma comparable_sym (a b : string) : comparable a b = comparable b a.
Proof. unfold comparable. apply orb_comm. Qed.

Lemma prefixesAt_Permutation (p : string) (items items' : list string) (s : string) :
  items ≡ₚ items' → prefixesAt p items s = prefixesAt p items' s.
Proof.
  induction 1 as [|x l l' _ IH|x y l|l l' l'' _ IH1 _ IH2]; cbn [prefixesAt].
  - done.
  - by rewrite IH.
  - destruct (startsWith x s), (startsWith y s);
      rewrite ?append_empty_l, ?append_assoc; done.
  - by rewrite IH1.
Qed.

Lemma qualifyAt_Permutation (p : string) (items items' : list string) (s : string) :
  items ≡ₚ items' → qualifyAt p items s = qualifyAt p items' s.
Proof.
  intros Hperm. induction s as [|c s IH]; [done|].
  cbn [qualifyAt]. by rewrite IH, (prefixesAt_Permutation p items items' _ Hperm).
Qed.

Lemma exclusive_spec (items : list string) :
  exclusive items = true →
  ∀ t u, t ∈ items → u ∈ items → t ≠ u → comparable t u = false.
Proof.
  unfold exclusive. rewrite forallb_forall. intros Hall t u Ht Hu Hne.
  specialize (Hall u (proj1 (list_elem_of_In _ _) Hu)). rewrite forallb_forall in Hall.
  specialize (Hall t (proj1 (list_elem_of_In _ _) Ht)).
  apply orb_true_iff in Hall as [Heq%bool_decide_eq_true | Hcmp%negb_true_iff]; done.
Qed.

(** Where no two tokens can match at one position, each position receives
    at most one prefix. *)
Lemma prefixesAt_exclusive (p : string) (items : list string) (s : string) :
  NoDup items →
  (∀ t u, t ∈ items → u ∈ items → t ≠ u → comparable t u = false) →
  prefixesAt p items s = if existsb (fun t => startsWith t s) items then p else "".
Proof.
  induction items as [|t items IH]; intros Hnd Hexcl; [done|].
  apply NoDup_cons in Hnd as [Ht Hnd]. cbn [prefixesAt existsb].
  destruct (startsWith t s) eqn:Hts.
  - rewrite prefixesAt_none; [by rewrite append_empty_r|].
    apply Forall_forall. intros u Hu. apply not_true_is_false. intros Hus.
    assert (t ≠ u) as Hne by (intros ->; done).
    specialize (Hexcl t u (list_elem_of_here _ _) (list_elem_of_further _ _ _ Hu) Hne).
    by rewrite (startsWith_comparable t u s Hts Hus) in Hexcl.
  - rewrite append_empty_l. cbn. apply IH; [done|].
    intros x y Hx Hy. apply Hexcl; by right.
Qed.

Lemma qualifyAt_exclusive (p : string) (items : list string) (s : string) :
  NoDup items → exclusive items = true →
  qualifyAt p items s = qualifyOccurrences p items s.
Proof.
  intros Hnd Hexcl. induction s as [|c s IH]; [done|].
  cbn [qualifyAt qualifyOccurrences].
  by rewrite IH, (prefixesAt_exclusive p items _ Hnd (exclusive_spec items Hexcl)).
Qed.

(** ** Occurrences, [replaceAll] and [matchAll] *)

Lemma take_drop (n : nat) (s : string) :
  OptionsPattern.take n s ++ OptionsPattern.drop n s = s.
Proof.
  revert s. induction n as [|n IH]; intros [|c s]; try done.
  cbn. by rewrite append_cons, IH.
Qed.

Lemma startsWith_split (t s : string) :
  startsWith t s = true → s = t ++ OptionsPattern.drop (String.length t) s.
Proof.
  intros Hts. rewrite <- (take_drop (String.length t) s) at 1.
  by rewrite (startsWith_take t s Hts).
Qed.

Lemma substringOf_startsWith (t s : string) : startsWith t s = true → substringOf t s.
Proof. intros Hts. exists "", (OptionsPattern.drop (String.length t) s). by apply startsWith_split. Qed.

Lemma substringOf_cons (t : string) (c : ascii) (s : string) :
  substringOf t s → substringOf t (String c s).
Proof. intros (a & b & ->). by exists (String c a), b. Qed.

Lemma occurs_substringOf (t s : string) : occurs t s = true ↔ substringOf t s.
Proof.
  induction s as [|c s IH]; cbn [occurs].
  - rewrite orb_false_r. split; [apply substringOf_startsWith|].
    intros ([|x a] & b & Heq); [|done]. rewrite append_empty_l in Heq.
    destruct t; [done | by rewrite append_cons in Heq].
  - rewrite orb_true_iff, IH. split.
    + intros [?|?]; [by apply substringOf_startsWith | by apply substringOf_cons].
    + intros ([|x a] & b & Heq).
      * left. rewrite Heq, append_empty_l. apply startsWith_append.
      * right. rewrite append_cons in Heq. injection Heq as -> ->. by exists a, b.
Qed.

Lemma replaceAllFrom_absent (pat rep s : string) :
  ¬ substringOf pat s → replaceAllFrom pat rep 0 s = s.
Proof.
  induction s as [|c s IH]; intros Habsent; cbn [replaceAllFrom].
  - destruct (startsWith pat "") eqn:Hp; [|done].
    by destruct Habsent; apply substringOf_startsWith.
  - destruct (startsWith pat (String c s)) eqn:Hp.
    + by destruct Habsent; apply substringOf_startsWith.
    + rewrite IH; [done|]. intros Hs. by apply Habsent, substringOf_cons.
Qed.

Lemma replaceAllFrom_same (pat s : string) : replaceAllFrom pat pat 0 s = s.
Proof.
  remember (String.length s) as n eqn:Hn.
  assert (String.length s ≤ n)%nat as Hlen by lia. clear Hn.
  revert s Hlen. induction n as [|n IH]; intros s Hlen.
  - destruct s; [|cbn in Hlen; lia]. cbn. by destruct pat.
  - destruct s as [|c s]; [cbn; by destruct pat|].
    cbn [replaceAllFrom]. destruct (startsWith pat (String c s)) eqn:Hp.
    + destruct pat as [|a v].
      * rewrite append_empty_l, IH by (cbn in Hlen; lia). done.
      * rewrite replaceAllFrom_skip by done.
        rewrite IH by (pose proof (drop_length_le (String.length v) s); cbn in Hlen; lia).
        symmetry. exact (startsWith_split _ _ Hp).
    + rewrite IH by (cbn in Hlen; lia). done.
Qed.

(** [replaceAll] leaves a text in which the pattern does not occur as it
    is, whatever the replacement, and replacing a pattern by itself changes
    no text. *)
Theorem replaceAll_keeps_other_text (pat rep s : string) :
  (¬ substringOf pat s → replaceAll pat rep s = s)
  ∧ replaceAll pat pat s = s.
Proof. split; [apply replaceAllFrom_absent | apply replaceAllFrom_same]. Qed.

Lemma matchAllFrom_weave (alts : list string) (s : string) (skip : nat) :
  ∃ gap pieces,
    map fst pieces = matchAllFrom alts skip s
    ∧ OptionsPattern.drop skip s = gap ++ weave pieces.
Proof.
  revert skip. induction s as [|c s IH]; intros skip.
  - destruct skip as [|skip]; cbn [matchAllFrom OptionsPattern.drop].
    + destruct (List.find _ alts) as [t|] eqn:Ht; [|by exists "", []].
      apply find_some in Ht as [_ Ht]. destruct t; [|done].
      by exists "", [("", "")].
    + by exists "", [].
  - destruct skip as [|skip]; cbn [matchAllFrom OptionsPattern.drop]; [|apply IH].
    destruct (List.find _ alts) as [t|] eqn:Ht.
    + apply find_some in Ht as [_ Ht]. destruct t as [|a v].
      * destruct (IH 0%nat) as (gap & pieces & Hm & Hs). cbn [OptionsPattern.drop] in Hs.
        exists "", (("", String c gap) :: pieces). cbn [map fst weave]. rewrite Hm.
        split; [done|]. rewrite !append_empty_l, append_cons. by f_equal; destruct s.
      * replace (String.length (String a v) - 1)%nat with (String.length v)
          by (cbn [String.length]; lia).
        destruct (IH (String.length v)) as (gap & pieces & Hm & Hs).
        exists "", ((String a v, gap) :: pieces). cbn [map fst weave]. rewrite Hm.
        split; [done|]. rewrite append_empty_l, <- Hs.
        apply (startsWith_split (String a v) (String c s) Ht).
    + destruct (IH 0%nat) as (gap & pieces & Hm & Hs).
      exists (String c gap), pieces. split; [done|].
      rewrite append_cons. f_equal. by destruct s.
Qed.

Lemma matchAllFrom_absent (alts : list string) (s : string) :
  (∀ t, t ∈ alts → ¬ substringOf t s) → matchAllFrom alts 0 s = [].
Proof.
  induction s as [|c s IH]; intros Habsent; cbn [matchAllFrom].
  - destruct (List.find _ alts) as [t|] eqn:Ht; [|done].
    apply find_some in Ht as [Hin%list_elem_of_In Ht].
    by destruct (Habsent t Hin); apply substringOf_startsWith.
  - destruct (List.find _ alts) as [t|] eqn:Ht.
    + apply find_some in Ht as [Hin%list_elem_of_In Ht].
      by destruct (Habsent t Hin); apply substringOf_startsWith.
    + apply IH. intros t Ht' Hs. by apply (Habsent t Ht'), substringOf_cons.
Qed.

(** The matches of a pattern are alternatives of the pattern; they stand in
    the text in the order of the result, one after the other without
    overlap; and a text in which no alternative occurs has no match. *)
Theorem matchAll_scans_in_order (alts : list string) (s : string) :
  Forall (fun m => m ∈ alts) (matchAll alts s)
  ∧ (∃ gap pieces, map fst pieces = matchAll alts s ∧ s = gap ++ weave pieces)
  ∧ ((∀ t, t ∈ alts → ¬ substringOf t s) → matchAll alts s = []).
Proof.
  split_and!.
  - apply Forall_forall. intros m. apply matchAllFrom_elem.
  - destruct (matchAllFrom_weave alts s 0) as (gap & pieces & Hm & Hs).
    exists gap, pieces. split; [done|]. by destruct s.
  - apply matchAllFrom_absent.
Qed.

Lemma weave_substringOf (pieces : list (string * string)) (m : string) :
  m ∈ map fst pieces → substringOf m (weave pieces).
Proof.
  induction pieces as [|[m' gap] pieces IH]; [by intros ?%elem_of_nil|].
  cbn [map fst weave]. intros [->|Hin]%elem_of_cons.
  - by exists "", (gap ++ weave pieces).
  - destruct (IH Hin) as (a & b & ->). exists (m' ++ gap ++ a), b.
    by rewrite !append_assoc.
Qed.

(** ** Replacements in a text the tokens keep clear in *)

Section Clear.
Variables (p : string) (L : list string).

Lemma occursAt_false (items : list string) (s : string) :
  items ⊆ L → occursAt L s = false → Forall (fun t => startsWith t s = false) items.
Proof.
  intros Hsub Hnone. apply Forall_forall. intros t Ht.
  apply not_true_is_false. intros Hts.
  assert (occursAt L s = true) as Hocc; [|congruence].
  unfold occursAt. apply existsb_exists. exists t.
  split; [apply list_elem_of_In; by apply Hsub | done].
Qed.

Lemma occursAt_true (items : list string) (s : string) :
  items ⊆ L → Exists (fun t => startsWith t s = true) items → occursAt L s = true.
Proof.
  intros Hsub (t & Ht & Hts)%Exists_exists. unfold occursAt. apply existsb_exists.
  exists t. split; [apply list_elem_of_In; by apply Hsub | done].
Qed.

(** Where a token occurs, the prefixes due begin with [p]. *)
Lemma prefixesAt_begins (items : list string) (s rest : string) :
  Exists (fun t => startsWith t s = true) items →
  ∃ z, prefixesAt p items s ++ rest = p ++ z.
Proof.
  induction 1 as [t items Ht | t items _ IH]; cbn [prefixesAt].
  - rewrite Ht. eexists. by rewrite append_assoc.
  - destruct (startsWith t s); [eexists; by rewrite append_assoc|].
    by rewrite append_empty_l.
Qed.

Lemma prefixesAt_absent (items : list string) (s : string) :
  ¬ Exists (fun t => startsWith t s = true) items → prefixesAt p items s = "".
Proof.
  intros Hnone. apply prefixesAt_none, Forall_forall. intros t Ht.
  apply not_true_is_false. intros Hts. apply Hnone, Exists_exists. by exists t.
Qed.

(** The rest [v] of a token is found in the qualified text where it was
    found in the text. *)
Lemma startsWith_qualified (items : list string) (v r : string) :
  items ⊆ L → keepsApart p L v r = true →
  startsWith v (qualifyAt p items r) = startsWith v r.
Proof.
  intros Hsub. revert r. induction v as [|d v IH]; intros r Hkeep; [done|].
  destruct r as [|e r]; [done|].
  cbn [keepsApart] in Hkeep. apply andb_true_iff in Hkeep as [Hhere Hrest].
  cbn [qualifyAt].
  destruct (decide (Exists (fun t => startsWith t (String e r) = true) items)) as [Hex|Hnone].
  - rewrite (occursAt_true items _ Hsub Hex) in Hhere. cbn [negb orb] in Hhere.
    apply andb_true_iff in Hhere as [Hv%negb_true_iff Hp%negb_true_iff].
    rewrite Hv.
    destruct (prefixesAt_begins items _ (String e (qualifyAt p items r)) Hex) as [z ->].
    apply not_true_is_false. intros Hvp.
    by rewrite (startsWith_comparable _ _ _ Hvp (startsWith_append p z)) in Hp.
  - rewrite (prefixesAt_absent items _ Hnone), append_empty_l.
    cbn [startsWith]. case_decide; [by apply IH | done].
Qed.

(** Inside an occurrence of a token no prefix is due. *)
Lemma qualifyAt_inside (items : list string) (v r : string) :
  items ⊆ L → keepsApart p L v r = true → startsWith v r = true →
  qualifyAt p items r = v ++ qualifyAt p items (OptionsPattern.drop (String.length v) r).
Proof.
  intros Hsub. revert r. induction v as [|d v IH]; intros r Hkeep Hv.
  - by destruct r.
  - destruct r as [|e r]; [done|].
    cbn [keepsApart] in Hkeep. apply andb_true_iff in Hkeep as [Hhere Hrest].
    rewrite Hv in Hhere. cbn [negb andb] in Hhere. rewrite orb_false_r in Hhere.
    apply negb_true_iff in Hhere.
    pose proof Hv as Hv'. cbn [startsWith] in Hv'. case_decide as Hde; [subst e|done].
    cbn [qualifyAt String.length OptionsPattern.drop].
    rewrite prefixesAt_none by (by apply occursAt_false).
    rewrite append_empty_l, append_cons. f_equal. by apply IH.
Qed.

(** A token finds no occurrence in a stretch it does not begin in. *)
Lemma replaceAllFrom_through (t rep q rest : string) :
  apart t q = true →
  replaceAllFrom t rep 0 (q ++ rest) = q ++ replaceAllFrom t rep 0 rest.
Proof.
  induction q as [|d q IH]; intros Hq; [done|].
  apply apart_cons in Hq as [Hcmp Hq]. rewrite !append_cons.
  cbn [replaceAllFrom].
  destruct (startsWith t (String d (q ++ rest))) eqn:Hts.
  - rewrite <- append_cons in Hts.
    by rewrite (startsWith_comparable _ _ _ Hts (startsWith_append (String d q) rest)) in Hcmp.
  - f_equal. by apply IH.
Qed.

Lemma replaceAllFrom_prefixes (t rep : string) (items : list string) (s rest : string) :
  apart t p = true →
  replaceAllFrom t rep 0 (prefixesAt p items s ++ rest)
  = prefixesAt p items s ++ replaceAllFrom t rep 0 rest.
Proof.
  intros Hp. induction items as [|u items IH]; [done|]. cbn [prefixesAt].
  destruct (startsWith u s).
  - rewrite !append_assoc, replaceAllFrom_through by done. by rewrite IH.
  - by rewrite !append_empty_l.
Qed.

Lemma prefixesAt_comm (items : list string) (s : string) :
  prefixesAt p items s ++ p = p ++ prefixesAt p items s.
Proof.
  induction items as [|u items IH]; cbn [prefixesAt]; [by rewrite append_empty_r|].
  destruct (startsWith u s); [|by rewrite !append_empty_l].
  by rewrite !append_assoc, IH.
Qed.

Lemma clearText_drop (n : nat) (s : string) :
  clearText p L s = true → clearText p L (OptionsPattern.drop n s) = true.
Proof.
  revert s. induction n as [|n IH]; intros [|c s] Hclear; try done.
  cbn [OptionsPattern.drop]. apply IH.
  cbn [clearText] in Hclear. by apply andb_true_iff in Hclear as [_ ?].
Qed.

(** In a text the tokens of [L] keep clear in, where some of them have
    received their prefixes already, [replaceAll] puts the prefix of one more
    token before the occurrences the token has in the text as it was. *)
Lemma replaceAll_qualified (t : string) (items : list string) (s : string) :
  t ∈ L → items ⊆ L → t ≠ "" → apart t p = true → clearText p L s = true →
  replaceAll t (p ++ t) (qualifyAt p items s) = qualifyAt p (t :: items) s.
Proof.
  intros Ht Hsub Hne Hp. unfold replaceAll.
  assert ((t :: items) ⊆ L) as Hsub'
    by (intros y [->|Hy]%elem_of_cons; [done | by apply Hsub]).
  remember (String.length s) as n eqn:Hn.
  assert (String.length s ≤ n)%nat as Hlen by lia. clear Hn.
  revert s Hlen. induction n as [|n IH]; intros s Hlen Hclear.
  - destruct s; [|cbn in Hlen; lia]. cbn. by destruct t.
  - destruct s as [|c s]; [cbn; by destruct t|].
    pose proof Hclear as Hclear'.
    cbn [clearText] in Hclear'. apply andb_true_iff in Hclear' as [Hhere Htail].
    rewrite forallb_forall in Hhere. specialize (Hhere _ (proj1 (list_elem_of_In _ _) Ht)).
    cbn [qualifyAt]. rewrite replaceAllFrom_prefixes by done.
    destruct t as [|c' v]; [done|].
    destruct (decide (c' = c)) as [->|Hc].
    + rename Hhere into Hkeep.
      cbn [replaceAllFrom prefixesAt startsWith]. rewrite !decide_True by done.
      rewrite (startsWith_qualified items v s Hsub Hkeep).
      destruct (startsWith v s) eqn:Hv.
      * rewrite replaceAllFrom_skip by done.
        rewrite (qualifyAt_inside items v s Hsub Hkeep Hv), drop_append_length.
        rewrite IH;
          [|pose proof (drop_length_le (String.length v) s); cbn in Hlen; lia
           |by apply clearText_drop].
        rewrite (qualifyAt_inside (String c v :: items) v s Hsub' Hkeep Hv).
        rewrite <- prefixesAt_comm. by rewrite !append_assoc, !append_cons.
      * rewrite IH by (done || cbn in Hlen; lia). by rewrite append_empty_l.
    + cbn [replaceAllFrom prefixesAt startsWith]. rewrite !decide_False by done.
      rewrite IH by (done || cbn in Hlen; lia). by rewrite append_empty_l.
Qed.

Lemma clearTokens_elem (t : string) :
  clearTokens p L = true → t ∈ L → t ≠ "" ∧ apart t p = true.
Proof.
  unfold clearTokens. rewrite forallb_forall. intros Hall Ht%list_elem_of_In.
  specialize (Hall t Ht). apply andb_true_iff in Hall as [Hne%negb_true_iff Hp].
  by apply bool_decide_eq_false in Hne.
Qed.

(** The loop of replacements, over tokens of [L] in whatever order, puts one
    prefix before every occurrence each of them has in the text it started
    from. *)
Lemma replaceAll_loop_clear (items : list string) (s : string) :
  items ⊆ L → clearTokens p L = true → clearText p L s = true →
  fold_left (fun patch t => replaceAll t (p ++ t) patch) items s = qualifyAt p items s.
Proof.
  intros Hsub Htokens Hclear. induction items as [|t items IH] using rev_ind.
  - by rewrite qualifyAt_nil.
  - rewrite fold_left_app. cbn [fold_left].
    rewrite IH by (intros y Hy; apply Hsub, elem_of_app; by left).
    assert (t ∈ L) as Ht by (apply Hsub, elem_of_app; right; by left).
    destruct (clearTokens_elem t Htokens Ht) as [Hne Hp].
    rewrite replaceAll_qualified;
      [|done|intros y Hy; apply Hsub, elem_of_app; by left|done|done|done].
    apply qualifyAt_Permutation, Permutation_cons_append.
Qed.
End Clear.

Lemma clearTokens_subseteq (p : string) (items items' : list string) :
  items' ⊆ items → clearTokens p items = true → clearTokens p items' = true.
Proof.
  unfold clearTokens. rewrite !forallb_forall. intros Hsub Hall t Ht%list_elem_of_In.
  apply Hall, list_elem_of_In. by apply Hsub.
Qed.

(** ** The tokens of a registry the constructor built *)

Lemma literal_no_syntax (c : ascii) (t : string) :
  RegExp.isSyntaxCharacter c = true → RegExp.literal t = true → occursIn c t = false.
Proof.
  intros Hc. induction t as [|d t IH]; [done|]. cbn [RegExp.literal occursIn].
  intros [Hd%negb_true_iff Ht]%andb_true_iff.
  case_decide as Heq; [subst d; congruence | by apply IH].
Qed.

Lemma apart_marked (t v : string) (a b : ascii) :
  occursIn a t = true → occursIn a v = false →
  occursIn b t = false → inEverySuffix b v = true →
  apart t v = true.
Proof.
  intros Hat Hav Hbt. induction v as [|c v IH]; intros Hbv; [done|].
  cbn [inEverySuffix] in Hbv. apply andb_true_iff in Hbv as [Hb Hbv].
  cbn [apart]. apply andb_true_iff. split.
  - apply negb_true_iff, orb_false_iff. split; apply not_true_is_false; intros Hst.
    + by rewrite (startsWith_occursIn a _ _ Hst Hat) in Hav.
    + by rewrite (startsWith_occursIn b _ _ Hst Hb) in Hbt.
  - apply IH; [|done]. cbn [occursIn] in Hav. by case_decide.
Qed.

Lemma grown_literal_clear (e : string) :
  grownToken e → RegExp.literal e = true → e ≠ "" ∧ apart e "typebox." = true.
Proof.
  intros Hgrown Hliteral.
  pose proof (literal_no_syntax "." e eq_refl Hliteral) as Hdot.
  destruct Hgrown as [HT|HO].
  - split; [by intros ->|].
    apply (apart_marked e "typebox." "T" "."); [|done|done|done].
    destruct e as [|c e]; [done|]. cbn in HT |- *. by case_decide.
  - split; [by intros ->|].
    by apply (apart_marked e "typebox." "O" ".").
Qed.

(** No token of a registry the constructor built is empty, and none that
    holds no syntax character begins inside [typebox.]. *)
Lemma new_clearTokens (localeCompare : string → string → Z)
    (sourceFiles : list SourceFile) (g : ProgramGenerator.t) :
  ProgramGenerator.new localeCompare sourceFiles = Normal g →
  Forall (fun t => RegExp.literal t = true) (ProgramGenerator.internalTypes g) →
  clearTokens "typebox." (ProgramGenerator.internalTypes g) = true.
Proof.
  intros (extra & Hregistry & Hgrown)%new_internalTypes Hliteral.
  rewrite Hregistry in Hliteral |- *. apply Forall_app in Hliteral as [_ Hliteral].
  unfold clearTokens. rewrite forallb_app. apply andb_true_iff. split; [reflexivity|].
  apply forallb_forall. intros e He%list_elem_of_In.
  destruct (grown_literal_clear e) as [Hne Hp].
  - by apply (proj1 (Forall_forall _ _) Hgrown).
  - by apply (proj1 (Forall_forall _ _) Hliteral).
  - by rewrite Hp, (bool_decide_eq_false_2 _ Hne).
Qed.

(** ** The loop of [patchType] *)

Lemma literalMatches_NoDup (g : ProgramGenerator.t) (s : string) :
  NoDup (literalMatches g s).
Proof. apply getUnique_NoDup. Qed.

Lemma literalMatches_registered (g : ProgramGenerator.t) (s item : string) :
  item ∈ literalMatches g s → item ∈ ProgramGenerator.internalTypes g.
Proof.
  unfold literalMatches, matchAll. intros Hitem.
  apply (proj1 (getUnique_elem _ _)) in Hitem. by apply matchAllFrom_elem in Hitem.
Qed.

Lemma literalMatches_occur (g : ProgramGenerator.t) (s item : string) :
  item ∈ literalMatches g s → substringOf item s.
Proof.
  unfold literalMatches, matchAll. intros Hitem.
  apply (proj1 (getUnique_elem _ _)) in Hitem.
  destruct (matchAllFrom_weave (ProgramGenerator.internalTypes g) s 0)
    as (gap & pieces & Hm & Hs).
  rewrite <- Hm in Hitem. apply weave_substringOf in Hitem as (a & b & Hweave).
  exists (gap ++ a), b.
  replace s with (OptionsPattern.drop 0 s) by by destruct s.
  by rewrite Hs, Hweave, !append_assoc.
Qed.

(** The scan misses no occurrence of an alternative: each begins inside a
    match, at its first character or further on. *)
Lemma matchAllFrom_covers (alts : list string) (s : string) (skip : nat) (a t b : string) :
  Forall (fun u => u ≠ "") alts →
  s = a ++ t ++ b → t ∈ alts → (skip ≤ String.length a)%nat →
  ∃ a' u b', u ∈ matchAllFrom alts skip s ∧ s = a' ++ u ++ b'
             ∧ (String.length a' ≤ String.length a < String.length a' + String.length u)%nat.
Proof.
  intros Hne. revert skip a. induction s as [|c s IH]; intros skip a Hs Ht Hskip.
  - destruct a; [|done]. rewrite append_empty_l in Hs. destruct t; [|done].
    by destruct (proj1 (Forall_forall _ _) Hne "" Ht).
  - destruct skip as [|skip]; cbn [matchAllFrom].
    + destruct (List.find (fun u => startsWith u (String c s)) alts) as [u|] eqn:Hfind.
      * apply find_some in Hfind as [Hu%list_elem_of_In Hus].
        pose proof (proj1 (Forall_forall _ _) Hne u Hu) as Hu_ne.
        destruct (decide (String.length a < String.length u)%nat) as [Hin|Hout].
        -- exists "", u, (OptionsPattern.drop (String.length u) (String c s)).
           split_and!; [by left | by apply startsWith_split | cbn; lia | cbn; lia].
        -- destruct a as [|c0 a]; [destruct u; [done | cbn in Hout; lia]|].
           rewrite append_cons in Hs. injection Hs as -> Hs.
           destruct (IH (String.length u - 1)%nat a Hs Ht) as (a' & w & b' & Hw & Hsplit & Hpos);
             [cbn in Hout; lia|].
           exists (String c0 a'), w, b'.
           split_and!; [by right | by rewrite append_cons, <- Hsplit | cbn; lia | cbn; lia].
      * destruct a as [|c0 a].
        -- rewrite append_empty_l in Hs.
           apply find_none with (x := t) in Hfind; [|by apply list_elem_of_In].
           by rewrite Hs, startsWith_append in Hfind.
        -- rewrite append_cons in Hs. injection Hs as -> Hs.
           destruct (IH 0%nat a Hs Ht) as (a' & w & b' & Hw & Hsplit & Hpos); [lia|].
           exists (String c0 a'), w, b'.
           split_and!; [done | by rewrite append_cons, <- Hsplit | cbn; lia | cbn; lia].
    + destruct a as [|c0 a]; [cbn in Hskip; lia|].
      rewrite append_cons in Hs. injection Hs as -> Hs.
      destruct (IH skip a Hs Ht) as (a' & w & b' & Hw & Hsplit & Hpos); [cbn in Hskip; lia|].
      exists (String c0 a'), w, b'.
      split_and!; [done | by rewrite append_cons, <- Hsplit | cbn; lia | cbn; lia].
Qed.

Lemma patchItems_registered (g : ProgramGenerator.t) (items : list string) (s : string) :
  items ⊆ ProgramGenerator.internalTypes g →
  ProgramGenerator.patchItems g items s
  = fold_left (fun patch t => replaceAll t ("typebox." ++ t) patch) items s.
Proof.
  unfold ProgramGenerator.patchItems. revert s.
  induction items as [|t items IH]; intros s Hsub; [done|].
  cbn [fold_left].
  rewrite (proj2 (includes_true (ProgramGenerator.internalTypes g) t)) by (apply Hsub; by left).
  rewrite IH by (intros y Hy; apply Hsub; by right). done.
Qed.

(** Over registered tokens that keep clear in the text, in whatever order
    they are taken, the loop of [patchType] puts [typebox.] before every
    occurrence of each of them. *)
Lemma patchItems_qualifyAt (g : ProgramGenerator.t) (found items : list string) (s : string) :
  found ⊆ ProgramGenerator.internalTypes g →
  clearTokens "typebox." (ProgramGenerator.internalTypes g) = true →
  clearText "typebox." found s = true →
  items ≡ₚ found →
  ProgramGenerator.patchItems g items s = qualifyAt "typebox." found s.
Proof.
  intros Hfound Htokens Hclear Hperm.
  rewrite patchItems_registered by (intros y Hy; apply Hfound; by rewrite <- Hperm).
  rewrite (replaceAll_loop_clear "typebox." found).
  - by apply qualifyAt_Permutation.
  - intros y Hy. by rewrite <- Hperm.
  - by eapply clearTokens_subseteq.
  - done.
Qed.

(** ** What [patchType] qualifies (C1) *)

(** C1, as the specification words it, fails: the pattern has no word
    boundary, so the [Static] inside [StaticDecode] is qualified, where the
    whole-token reading leaves the identifier alone; and a token that begins
    a longer token matched in the same text is qualified inside it too. *)
Lemma C1_whole_token_counterexample :
  ProgramGenerator.patchType Sample.hostMatchAll Sample.generator "StaticDecode"
  = Normal "typebox.StaticDecode"
  ∧ qualifyWholeTokens (ProgramGenerator.internalTypes Sample.generator) "StaticDecode"
    = "StaticDecode"
  ∧ ProgramGenerator.patchType Sample.hostMatchAll Sample.generator "TMappedResult TMapped"
    = Normal "typebox.typebox.TMappedResult typebox.TMapped"
  ∧ qualifyWholeTokens (ProgramGenerator.internalTypes Sample.generator) "TMappedResult TMapped"
    = "typebox.TMappedResult typebox.TMapped".
Proof. by vm_compute. Qed.

(** C1, amended. On a generator the constructor returns whose registered
    tokens hold no syntax character of patterns, the tokens [patchType] goes
    through are registered tokens that occur in the text, and no occurrence
    of a registered token escapes them: each begins inside an occurrence of
    one of them. When they keep clear of one another in the text, the result
    is the trimmed text with [typebox.] put before every position at which
    one of them occurs as a substring, inside a longer identifier as well as
    alone, once for each of them that occurs there; so once when no two of
    them can occur at one position. *)
Theorem C1_occurrences_qualified (hostMatchAll : string → string → completion (list string))
    (localeCompare : string → string → Z) (sourceFiles : list SourceFile)
    (g : ProgramGenerator.t) (s : string) :
  ProgramGenerator.new localeCompare sourceFiles = Normal g →
  Forall (fun t => RegExp.literal t = true) (ProgramGenerator.internalTypes g) →
  ∃ items,
    ProgramGenerator.matchedItems hostMatchAll g s = Normal items
    ∧ (∀ t, t ∈ items → t ∈ ProgramGenerator.internalTypes g ∧ substringOf t s)
    ∧ (∀ a t b, s = a ++ t ++ b → t ∈ ProgramGenerator.internalTypes g →
         ∃ a' u b', u ∈ items ∧ s = a' ++ u ++ b'
           ∧ (String.length a' ≤ String.length a < String.length a' + String.length u)%nat)
    ∧ (clearText "typebox." items s = true →
       ProgramGenerator.patchType hostMatchAll g s
       = Normal (JsString.trim (qualifyAt "typebox." items s))
       ∧ (exclusive items = true →
          ProgramGenerator.patchType hostMatchAll g s
          = Normal (JsString.trim (qualifyOccurrences "typebox." items s)))).
Proof.
  intros Hnew Hliteral.
  pose proof (new_internalTypes_nonempty _ _ _ Hnew) as Hne.
  pose proof (new_clearTokens _ _ _ Hnew Hliteral) as Htokens.
  exists (literalMatches g s). split_and!.
  - by apply matchedItems_literal.
  - intros t Ht. split; [by eapply literalMatches_registered | by eapply literalMatches_occur].
  - intros a t b Hs Ht.
    destruct (matchAllFrom_covers (ProgramGenerator.internalTypes g) s 0 a t b)
      as (a' & u & b' & Hu & Hsplit & Hpos); [|done|done|lia|].
    + apply Forall_forall. intros u Hu. by destruct (clearTokens_elem _ _ u Htokens Hu).
    + exists a', u, b'. split_and!; [|done|lia|lia].
      by apply getUnique_elem.
  - intros Hclear.
    assert (ProgramGenerator.patchType hostMatchAll g s
            = Normal (JsString.trim (qualifyAt "typebox." (literalMatches g s) s))) as Hpatch.
    { rewrite patchType_literal by done. unfold literalPatch. f_equal. f_equal.
      apply patchItems_qualifyAt; [|done|done|done].
      intros t Ht. by eapply literalMatches_registered. }
    split; [exact Hpatch|]. intros Hexcl. rewrite Hpatch.
    by rewrite (qualifyAt_exclusive "typebox." _ s (literalMatches_NoDup g s) Hexcl).
Qed.

Lemma C1_occurrences_qualified_witness :
  ProgramGenerator.new Sample.codeUnitCompare [Sample.jsonSource; Sample.javascriptSource]
  = Normal Sample.generator
  ∧ Forall (fun t => RegExp.literal t = true) (ProgramGenerator.internalTypes Sample.generator)
  ∧ ∃ items,
      ProgramGenerator.matchedItems Sample.hostMatchAll Sample.generator
        " TObject<TProperties> | Static<TMappedResult> StaticDecode " = Normal items
      ∧ clearText "typebox." items
          " TObject<TProperties> | Static<TMappedResult> StaticDecode " = true
      ∧ ProgramGenerator.patchType Sample.hostMatchAll Sample.generator
          " TObject<TProperties> | Static<TMappedResult> StaticDecode "
        = Normal "typebox.TObject<typebox.TProperties> | typebox.Static<typebox.TMappedResult> typebox.StaticDecode".
Proof.
  split; [exact sample_generator_new|]. split; [exact sample_generator_literal|].
  destruct (C1_occurrences_qualified Sample.hostMatchAll Sample.codeUnitCompare
              [Sample.jsonSource; Sample.javascriptSource] Sample.generator
              " TObject<TProperties> | Static<TMappedResult> StaticDecode "
              sample_generator_new sample_generator_literal)
    as (items & Hitems & _ & _ & Hpatch).
  exists items. split; [exact Hitems|].
  vm_compute in Hitems. injection Hitems as <-.
  split; [by vm_compute|].
  destruct (Hpatch eq_refl) as [_ ->]; [by vm_compute|]. by vm_compute.
Defined.

(** ** The order of the replacements (C2) *)

(** C2, as the specification words it, fails: in
    [TMappedResulTSchema TMappedResult] the pattern finds [TMapped],
    [TSchema] and [TMappedResult]; qualifying [TSchema] turns
    [TMappedResulTSchema] into a text that holds [TMappedResult], which the
    loop qualifies if it comes to [TMappedResult] afterwards, as it does, and
    not if it came to it before. *)
Lemma C2_order_counterexample :
  ProgramGenerator.matchedItems Sample.hostMatchAll Sample.generator
    "TMappedResulTSchema TMappedResult"
  = Normal ["TMapped"; "TSchema"; "TMappedResult"]
  ∧ ["TMapped"; "TMappedResult"; "TSchema"] ≡ₚ ["TMapped"; "TSchema"; "TMappedResult"]
  ∧ Normal (JsString.trim
              (ProgramGenerator.patchItems Sample.generator
                 ["TMapped"; "TMappedResult"; "TSchema"] "TMappedResulTSchema TMappedResult"))
    ≠ ProgramGenerator.patchType Sample.hostMatchAll Sample.generator
        "TMappedResulTSchema TMappedResult".
Proof.
  split; [by vm_compute|]. split; [apply perm_skip, perm_swap|].
  vm_compute. discriminate.
Qed.

(** C2, amended. On a generator the constructor returns whose registered
    tokens hold no syntax character of patterns: when the tokens the
    pattern finds keep clear of one another in the text, taking them in any
    order gives the result of [patchType]. *)
Theorem C2_order_irrelevant_when_clear
    (hostMatchAll : string → string → completion (list string))
    (localeCompare : string → string → Z) (sourceFiles : list SourceFile)
    (g : ProgramGenerator.t) (s : string) (items order : list string) :
  ProgramGenerator.new localeCompare sourceFiles = Normal g →
  Forall (fun t => RegExp.literal t = true) (ProgramGenerator.internalTypes g) →
  ProgramGenerator.matchedItems hostMatchAll g s = Normal items →
  clearText "typebox." items s = true →
  order ≡ₚ items →
  Normal (JsString.trim (ProgramGenerator.patchItems g order s))
  = ProgramGenerator.patchType hostMatchAll g s.
Proof.
  intros Hnew Hliteral Hitems Hclear Hperm.
  pose proof (new_internalTypes_nonempty _ _ _ Hnew) as Hne.
  pose proof (new_clearTokens _ _ _ Hnew Hliteral) as Htokens.
  rewrite matchedItems_literal in Hitems by done. injection Hitems as <-.
  rewrite patchType_literal by done. unfold literalPatch. f_equal. f_equal.
  assert (literalMatches g s ⊆ ProgramGenerator.internalTypes g) as Hfound
    by (intros t Ht; by eapply literalMatches_registered).
  rewrite (patchItems_qualifyAt g (literalMatches g s) order s) by done.
  by rewrite (patchItems_qualifyAt g (literalMatches g s) (literalMatches g s) s).
Qed.

Lemma C2_order_irrelevant_when_clear_witness :
  ProgramGenerator.new Sample.codeUnitCompare [Sample.jsonSource; Sample.javascriptSource]
  = Normal Sample.generator
  ∧ Forall (fun t => RegExp.literal t = true) (ProgramGenerator.internalTypes Sample.generator)
  ∧ ProgramGenerator.matchedItems Sample.hostMatchAll Sample.generator
      " TObject<TProperties> | Static<TMappedResult> "
    = Normal ["TObject"; "TProperties"; "Static"; "TMappedResult"]
  ∧ clearText "typebox." ["TObject"; "TProperties"; "Static"; "TMappedResult"]
      " TObject<TProperties> | Static<TMappedResult> " = true
  ∧ ["TMappedResult"; "Static"; "TProperties"; "TObject"]
    ≡ₚ ["TObject"; "TProperties"; "Static"; "TMappedResult"]
  ∧ Normal (JsString.trim
              (ProgramGenerator.patchItems Sample.generator
                 ["TMappedResult"; "Static"; "TProperties"; "TObject"]
                 " TObject<TProperties> | Static<TMappedResult> "))
    = ProgramGenerator.patchType Sample.hostMatchAll Sample.generator
        " TObject<TProperties> | Static<TMappedResult> ".
Proof.
  assert (["TMappedResult"; "Static"; "TProperties"; "TObject"]
          ≡ₚ ["TObject"; "TProperties"; "Static"; "TMappedResult"]) as Hperm
    by (symmetry; apply (Permutation_rev ["TObject"; "TProperties"; "Static"; "TMappedResult"])).
  split; [exact sample_generator_new|]. split; [exact sample_generator_literal|].
  split; [by vm_compute|]. split; [by vm_compute|]. split; [exact Hperm|].
  apply (C2_order_irrelevant_when_clear Sample.hostMatchAll Sample.codeUnitCompare
           [Sample.jsonSource; Sample.javascriptSource] Sample.generator
           " TObject<TProperties> | Static<TMappedResult> "
           ["TObject"; "TProperties"; "Static"; "TMappedResult"]
           ["TMappedResult"; "Static"; "TProperties"; "TObject"]
           sample_generator_new sample_generator_literal);
    [by vm_compute | by vm_compute | exact Hperm].
Defined.

(** * Further properties of the code *)

(** ** [getUnique] *)

Lemma getUnique_NoDup_id {A} `{EqDecision A} (l : list A) :
  NoDup l → utils.getUnique l = l.
Proof.
  induction l as [|x l IH] using rev_ind; intros Hnd; [done|].
  apply NoDup_app in Hnd as (Hl & Hx & _).
  rewrite getUnique_snoc, IH by done. apply pushIfAbsent_absent.
  intros Hin. apply (Hx x Hin). by left.
Qed.

(** [getUnique] keeps the first occurrence of every element, in the order
    of the array: the result has no repetition, the same elements, the order
    of the first occurrences; applying it again changes nothing, and an array
    without repetition is returned as it is. *)
Theorem getUnique_contract {A} `{EqDecision A} (l : list A) :
  NoDup (utils.getUnique l)
  ∧ (∀ x, x ∈ utils.getUnique l ↔ x ∈ l)
  ∧ (∀ x y, firstBefore x y (utils.getUnique l) ↔ firstBefore x y l)
  ∧ utils.getUnique (utils.getUnique l) = utils.getUnique l
  ∧ (NoDup l → utils.getUnique l = l).
Proof.
  split_and!.
  - apply getUnique_NoDup.
  - apply getUnique_elem.
  - apply getUnique_firstBefore.
  - apply getUnique_NoDup_id, getUnique_NoDup.
  - apply getUnique_NoDup_id.
Qed.

(** ** [groupBy] *)

(** [groupBy] throws as soon as one key is a property name plain objects
    inherit; otherwise the group of a key holds the elements of that key in
    the order of the input, and a key has a group exactly when an element
    carries it, so no group is empty. *)
Theorem groupBy_contract {T} (selector : T → string) (l : list T) :
  (Exists (fun e => selector e ∈ Object.prototype_keys) l →
   groupBy selector l = Throw "TypeError: arr.push is not a function")
  ∧ (Forall (fun e => selector e ∉ Object.prototype_keys) l →
     ∃ groupings, groupBy selector l = Normal groupings
       ∧ (∀ k, groupings !! k = None ↔ ∀ e, e ∈ l → selector e ≠ k)
       ∧ (∀ k es, groupings !! k = Some es →
                  es = filter (fun e => selector e = k) l ∧ es ≠ [])).
Proof.
  split.
  - intros Hex. unfold groupBy. by apply groupBy_loop_Throw.
  - intros Hall. destruct (groupBy_Normal selector l Hall) as (groupings & Heq & Hlookup).
    exists groupings. split; [done|]. split.
    + intros k. rewrite Hlookup. split.
      * intros Hnone e He Hk.
        assert (e ∈ filter (fun e => selector e = k) l) as Hin by by apply list_elem_of_filter.
        destruct (filter _ l); [by apply elem_of_nil in Hin | done].
      * intros Hno. destruct (filter _ l) as [|e es] eqn:Hf; [done|].
        assert (e ∈ filter (fun e => selector e = k) l) as Hin by (rewrite Hf; left).
        apply list_elem_of_filter in Hin as [Hk He]. by destruct (Hno e He).
    + intros k es. rewrite Hlookup.
      destruct (filter _ l) as [|e es'] eqn:Hf; [done|]. by intros [= <-].
Qed.

(** ** [isInArray] *)

Section IsInArray.
Context {A : Type} `{EqDecision A}.
Implicit Types (target : list (utilsMore.JsValue A)) (item : utilsMore.JsValue A).

Lemma strictEquals_undefined item :
  utilsMore.strictEquals item utilsMore.undefined = true ↔ item = utilsMore.undefined.
Proof. destruct item; cbn; split; intros; done. Qed.

(** The strict equality is the equality of [includes] but on [NaN]. *)
Lemma strictEquals_sameValueZero (a b : utilsMore.JsValue A) :
  a ≠ utilsMore.NaN → utilsMore.strictEquals a b = utilsMore.sameValueZero a b.
Proof. by destruct a, b. Qed.

(** What [find] gives equals the item strictly. *)
Lemma find_areEquals target item (found : utilsMore.JsValue A) :
  List.find (utilsMore.areEquals item) target = Some found →
  utilsMore.strictEquals item found = true.
Proof. by intros [_ ?]%find_some. Qed.

(** [isInArray] answers [true] exactly when the item strictly equals no
    element of the array, and also whenever the item is [undefined]. So for
    an item that is neither [undefined] nor [NaN] it is the negation of
    [includes]; for [undefined] and for [NaN], which strictly equals
    nothing, it answers [true] whatever the array holds, also where
    [includes] finds the [NaN] the array holds. *)
Theorem isInArray_true_iff_absent target item :
  (utilsMore.isInArray target item = true
   ↔ item = utilsMore.undefined
     ∨ ∀ element, element ∈ target → utilsMore.strictEquals item element = false)
  ∧ (item ≠ utilsMore.undefined → item ≠ utilsMore.NaN →
     utilsMore.isInArray target item = negb (utilsMore.includes target item))
  ∧ utilsMore.isInArray target utilsMore.undefined = true
  ∧ utilsMore.isInArray target utilsMore.NaN = true
  ∧ (utilsMore.NaN ∈ target → utilsMore.includes target utilsMore.NaN = true).
Proof.
  assert (utilsMore.isInArray target item = true
          ↔ item = utilsMore.undefined
            ∨ ∀ element, element ∈ target → utilsMore.strictEquals item element = false)
    as Hiff.
  { unfold utilsMore.isInArray.
    destruct (List.find (utilsMore.areEquals item) target) as [found|] eqn:Hfind;
      cbn -[utilsMore.strictEquals].
    - pose proof (find_areEquals _ _ _ Hfind) as Heq.
      apply find_some in Hfind as [Hin%list_elem_of_In _].
      rewrite strictEquals_undefined. split.
      + intros ->. left. by destruct item.
      + intros [->|Hnone]; [by destruct found|]. by rewrite (Hnone found Hin) in Heq.
    - split; [|done]. intros _. right. intros element Hin%list_elem_of_In.
      exact (find_none _ _ Hfind element Hin). }
  split; [exact Hiff|]. split_and!.
  - intros Hdefined Hnumber. apply eq_true_iff_eq. rewrite Hiff, negb_true_iff.
    unfold utilsMore.includes. rewrite <- not_true_iff_false, existsb_exists. split.
    + intros [?|Hnone] (element & Hin%list_elem_of_In & Hsame); [done|].
      rewrite <- strictEquals_sameValueZero in Hsame by done.
      by rewrite (Hnone element Hin) in Hsame.
    + intros Hnone. right. intros element Hin. apply not_true_is_false. intros Hsame.
      apply Hnone. exists element. split; [by apply list_elem_of_In|].
      by rewrite <- strictEquals_sameValueZero.
  - unfold utilsMore.isInArray.
    destruct (List.find _ target) as [found|] eqn:Hfind; [|done].
    apply find_areEquals in Hfind. by destruct found.
  - unfold utilsMore.isInArray.
    destruct (List.find _ target) as [found|] eqn:Hfind; [|done].
    by apply find_areEquals in Hfind.
  - intros Hin. unfold utilsMore.includes. apply existsb_exists.
    exists utilsMore.NaN. split; [by apply list_elem_of_In | done].
Qed.
End IsInArray.

(** ** Merging in steps *)

Lemma parameterTexts_app (a b : list NamedMethodDeclaration) :
  Method.parameterTexts (a ++ b)
  = (Method.parameterTexts a ++ Method.parameterTexts b)%list.
Proof. unfold Method.parameterTexts. by rewrite map_app, concat_app, omap_app. Qed.

(** Attaching declarations and merging in two steps gives the method that
    attaching them all and merging once gives, and a merge keeps the names
    merged before at the head of the list, in their order. *)
Theorem Method_merge_in_steps (m : Method.t) (a b : list NamedMethodDeclaration) :
  let m1 := Method.triggerInitTasks (Method.addDeclarations m a) in
  Method.triggerInitTasks (Method.addDeclarations m1 b)
  = Method.triggerInitTasks (Method.addDeclarations m (a ++ b))
  ∧ Method.parameters_names m `prefix_of` Method.parameters_names m1.
Proof.
  cbn zeta. split; [|apply pushAll_prefix].
  unfold Method.triggerInitTasks, Method.step1_addParametersNames, Method.addDeclarations.
  cbn [Method.name Method.description Method.declarations Method.parameters_names].
  rewrite (app_assoc (Method.declarations m) a b). f_equal.
  rewrite (parameterTexts_app (Method.declarations m ++ a) b), !fold_left_app. f_equal.
  apply pushAll_idempotent.
Qed.

(** ** The constructor, further *)

(** The builders collection holds exactly the named class declarations that
    stand at the top level of a root source and bear one of the two
    configured names; the classes of the other files of the program are not
    looked at. *)
Theorem builders_are_the_configured_classes (sourceFiles : list SourceFile)
    (c : NamedClassDeclaration) :
  c ∈ ProgramGenerator.builders
        (ProgramGenerator.fillBuilders (ProgramGenerator.fields sourceFiles))
  ↔ ∃ source, source ∈ sourceFiles
      ∧ fileName source ∈ ProgramGenerator.config.rootFiles
      ∧ ClassDeclaration (Some (class_name c)) (members c) ∈ children source
      ∧ class_name c ∈ ["JavaScriptTypeBuilder"; "JsonTypeBuilder"].
Proof.
  rewrite fillBuilders_builders. unfold builderClassesOf.
  rewrite elem_of_concat. split.
  - intros (l & Hc & Hl). apply list_elem_of_fmap in Hl as (source & -> & Hsource).
    apply list_elem_of_filter in Hsource as [Hroot Hsource].
    apply list_elem_of_filter in Hc as [Hbuilder Hc].
    apply list_elem_of_omap in Hc as (node & Hnode & Hclass).
    exists source. split_and!; [done| | |].
    + by apply includes_true.
    + by apply isClassDeclaration_Some in Hclass as <-.
    + by apply includes_true in Hbuilder.
  - intros (source & Hsource & Hroot & Hnode & Hname).
    eexists. split; [|apply list_elem_of_fmap; exists source; split; [reflexivity|]].
    + apply list_elem_of_filter. split; [by apply includes_true|].
      apply list_elem_of_omap. eexists. split; [exact Hnode|]. by apply isClassDeclaration_Some.
    + apply list_elem_of_filter. split; [by apply includes_true | done].
Qed.

Section ConstructorFurther.
Variable localeCompare : string → string → Z.

Lemma new_Normal_inv (sourceFiles : list SourceFile) (g : ProgramGenerator.t) :
  ProgramGenerator.new localeCompare sourceFiles = Normal g →
  plainNames (builderClassesOf sourceFiles).
Proof.
  intros Hg. unfold plainNames.
  destruct (decide (Forall (fun d => method_name d ∉ Object.prototype_keys)
                      (ProgramGenerator.rawMethodsOf (builderClassesOf sourceFiles))))
    as [Hplain|Hnot]; [done|].
  by rewrite (new_Throw localeCompare sourceFiles Hnot) in Hg.
Qed.

(** The constructor throws exactly when a named method of a builder class
    goes by a property name plain objects inherit, such as [toString]; the
    error is the one of [groupBy]. In every other case it returns a
    generator. *)
Theorem new_throws_iff_inherited_name (sourceFiles : list SourceFile) :
  let raw := ProgramGenerator.rawMethodsOf (builderClassesOf sourceFiles) in
  (ProgramGenerator.new localeCompare sourceFiles
   = Throw "TypeError: arr.push is not a function"
   ↔ ∃ d, d ∈ raw ∧ method_name d ∈ Object.prototype_keys)
  ∧ ((∃ g, ProgramGenerator.new localeCompare sourceFiles = Normal g)
     ↔ ∀ d, d ∈ raw → method_name d ∉ Object.prototype_keys).
Proof.
  cbn zeta. split; split.
  - intros Hthrow.
    destruct (decide (Forall (fun d => method_name d ∉ Object.prototype_keys)
                        (ProgramGenerator.rawMethodsOf (builderClassesOf sourceFiles))))
      as [Hplain|Hnot].
    + by rewrite (new_Normal localeCompare sourceFiles Hplain) in Hthrow.
    + apply (not_Forall_Exists _), Exists_exists in Hnot as (d & Hd & Hkey).
      exists d. split; [done|]. by apply dec_stable.
  - intros (d & Hd & Hkey). apply new_Throw. unfold plainNames. rewrite Forall_forall.
    intros Hall. by apply (Hall d Hd).
  - intros [g Hg]. apply Forall_forall. by eapply new_Normal_inv.
  - intros Hall. eexists. apply new_Normal. by apply Forall_forall.
Qed.

Lemma new_Normal_eq (sourceFiles : list SourceFile) (g : ProgramGenerator.t) :
  ProgramGenerator.new localeCompare sourceFiles = Normal g →
  let classes := builderClassesOf sourceFiles in
  let this := ProgramGenerator.fillOptionTypeNames
                (ProgramGenerator.fillBuilders (ProgramGenerator.fields sourceFiles)) in
  let names := ProgramGenerator.methodNames localeCompare (ProgramGenerator.rawMethodsOf classes) in
  g = {| ProgramGenerator.builders := classes;
         ProgramGenerator.internalTypes :=
           fold_left utils.pushIfAbsent (map (utils.addPrefix "T" "") names)
                     (ProgramGenerator.internalTypes this);
         ProgramGenerator.methods :=
           map (fun n => Method.triggerInitTasks
                           (Method.addDeclarations (Method.init n) (overloadsOf classes n)))
               names;
         ProgramGenerator.sources := ProgramGenerator.sources this |}.
Proof.
  intros Hg. pose proof (new_Normal_inv sourceFiles g Hg) as Hplain.
  rewrite (new_Normal localeCompare sourceFiles Hplain) in Hg. by injection Hg.
Qed.

(** The registry of a generator holds the seeds, the tokens found by the
    Options pattern in the root sources, the [T]-prefixed name of every
    method of the methods collection, and nothing else. *)
Theorem registry_holds_seeds_options_and_T_names (sourceFiles : list SourceFile)
    (g : ProgramGenerator.t) :
  ProgramGenerator.new localeCompare sourceFiles = Normal g →
  ∀ x, x ∈ ProgramGenerator.internalTypes g
       ↔ x ∈ ProgramGenerator.seedTypes
         ∨ x ∈ ProgramGenerator.optionTypeNames (ProgramGenerator.sources g)
         ∨ ∃ m, m ∈ ProgramGenerator.methods g ∧ x = "T" ++ Method.name m.
Proof.
  intros Hg x. rewrite (new_Normal_eq sourceFiles g Hg).
  cbn [ProgramGenerator.internalTypes ProgramGenerator.methods ProgramGenerator.sources
       ProgramGenerator.fillOptionTypeNames ProgramGenerator.fillBuilders].
  rewrite pushAll_elem, elem_of_app, list_elem_of_fmap.
  assert ((∃ n, x = utils.addPrefix "T" "" n
                ∧ n ∈ ProgramGenerator.methodNames localeCompare
                        (ProgramGenerator.rawMethodsOf (builderClassesOf sourceFiles)))
          ↔ ∃ m, m ∈ map (fun n => Method.triggerInitTasks
                                     (Method.addDeclarations (Method.init n)
                                        (overloadsOf (builderClassesOf sourceFiles) n)))
                         (ProgramGenerator.methodNames localeCompare
                            (ProgramGenerator.rawMethodsOf (builderClassesOf sourceFiles)))
                 ∧ x = "T" ++ Method.name m) as ->; [|tauto].
  split.
  - intros (n & -> & Hn). eexists. split; [apply list_elem_of_fmap; by exists n|]. done.
  - intros (m & Hm & ->). apply list_elem_of_fmap in Hm as (n & -> & Hn). by exists n.
Qed.

Lemma groups_Permutation {T} (key : T → string) (names : list string) (l : list T) :
  NoDup names → (∀ e, e ∈ l → key e ∈ names) →
  concat (map (fun n => filter (fun e => key e = n) l) names) ≡ₚ l.
Proof.
  intros Hnd. induction l as [|e l IH]; intros Hkeys.
  - clear Hnd Hkeys. induction names as [|n names IHn]; [done|]. cbn. exact IHn.
  - trans (e :: concat (map (fun n => filter (fun e => key e = n) l) names));
      [|apply perm_skip, IH; intros x Hx; apply Hkeys; by right].
    assert (key e ∈ names) as He by (apply Hkeys; left). clear IH Hkeys.
    induction names as [|n names IHn]; [by apply elem_of_nil in He|].
    apply NoDup_cons in Hnd as [Hn Hnd]. cbn [map concat]. rewrite filter_cons.
    destruct (decide (key e = n)) as [Heq|Hne].
    + assert (map (fun n0 => filter (fun e0 => key e0 = n0) (e :: l)) names
              = map (fun n0 => filter (fun e0 => key e0 = n0) l) names) as ->; [|done].
      apply map_ext_in. intros n' Hn'%list_elem_of_In. rewrite filter_cons.
      rewrite decide_False; [done|]. intros Heq'. apply Hn. by rewrite <- Heq, Heq'.
    + apply elem_of_cons in He as [?|He]; [done|].
      rewrite (IHn Hnd He). symmetry. apply Permutation_middle.
Qed.

(** Every named method declaration of the builder classes is attached to
    one method and one only, the one of its name: the declarations of the
    methods, put together, are the declarations found, up to their order. *)
Theorem declarations_are_shared_out (sourceFiles : list SourceFile) (g : ProgramGenerator.t) :
  ProgramGenerator.new localeCompare sourceFiles = Normal g →
  concat (map Method.declarations (ProgramGenerator.methods g))
  ≡ₚ ProgramGenerator.rawMethodsOf (ProgramGenerator.builders g)
  ∧ Forall (fun m => Forall (fun d => method_name d = Method.name m) (Method.declarations m))
           (ProgramGenerator.methods g).
Proof.
  intros Hg. rewrite (new_Normal_eq sourceFiles g Hg).
  cbn [ProgramGenerator.methods ProgramGenerator.builders]. split.
  - rewrite map_map. cbn. unfold overloadsOf.
    apply groups_Permutation.
    + apply sort_NoDup, getUnique_NoDup.
    + intros d Hd. apply methodNames_elem. by exists d.
  - apply Forall_fmap, Forall_forall. intros n _. cbn. unfold overloadsOf.
    apply Forall_forall. by intros d [? _]%list_elem_of_filter.
Qed.
End ConstructorFurther.

Lemma registry_holds_seeds_options_and_T_names_witness :
  ProgramGenerator.new Sample.codeUnitCompare [Sample.jsonSource; Sample.javascriptSource]
  = Normal Sample.generator
  ∧ ∀ x, x ∈ ProgramGenerator.internalTypes Sample.generator
         ↔ x ∈ ProgramGenerator.seedTypes
           ∨ x ∈ ProgramGenerator.optionTypeNames (ProgramGenerator.sources Sample.generator)
           ∨ ∃ m, m ∈ ProgramGenerator.methods Sample.generator ∧ x = "T" ++ Method.name m.
Proof.
  assert (ProgramGenerator.new Sample.codeUnitCompare [Sample.jsonSource; Sample.javascriptSource]
          = Normal Sample.generator) as Hg by (vm_compute; reflexivity).
  split; [exact Hg|].
  exact (registry_holds_seeds_options_and_T_names Sample.codeUnitCompare
           [Sample.jsonSource; Sample.javascriptSource] Sample.generator Hg).
Defined.

Lemma declarations_are_shared_out_witness :
  ProgramGenerator.new Sample.codeUnitCompare [Sample.jsonSource; Sample.javascriptSource]
  = Normal Sample.generator
  ∧ concat (map Method.declarations (ProgramGenerator.methods Sample.generator))
    ≡ₚ ProgramGenerator.rawMethodsOf (ProgramGenerator.builders Sample.generator).
Proof.
  assert (ProgramGenerator.new Sample.codeUnitCompare [Sample.jsonSource; Sample.javascriptSource]
          = Normal Sample.generator) as Hg by (vm_compute; reflexivity).
  split; [exact Hg|].
  exact (proj1 (declarations_are_shared_out Sample.codeUnitCompare
                  [Sample.jsonSource; Sample.javascriptSource] Sample.generator Hg)).
Defined.


(** ** The names of the methods *)

(** When no builder class of the root files declares a method under a name
    plain objects inherit, the constructor completes and the names of the
    methods collection are the names the builder classes of the root files
    declare a method under: each once, and in the order of
    [localeCompare]. *)
Theorem method_names_are_the_declared_names (localeCompare : string → string → Z)
    (sourceFiles : list SourceFile) :
  (∀ a b, (localeCompare a b ≤ 0)%Z ∨ (localeCompare b a ≤ 0)%Z) →
  (∀ n, declaresMethod sourceFiles n → n ∉ Object.prototype_keys) →
  ∃ g, ProgramGenerator.new localeCompare sourceFiles = Normal g
    ∧ let names := map Method.name (ProgramGenerator.methods g) in
      NoDup names
      ∧ (∀ n, n ∈ names ↔ declaresMethod sourceFiles n)
      ∧ Sorted (Array.ranksBefore localeCompare) names.
Proof.
  intros Htotal Hplain.
  assert (plainNames (builderClassesOf sourceFiles)) as Hplain'.
  { apply Forall_forall. intros d Hd. apply Hplain, declaresMethod_rawMethods. by exists d. }
  eexists. split; [by apply new_Normal|].
  cbn [ProgramGenerator.methods]. rewrite map_map.
  cbn [Method.name Method.triggerInitTasks Method.step1_addParametersNames
       Method.addDeclarations Method.init Method.new].
  rewrite map_id. split_and!.
  - apply sort_NoDup, getUnique_NoDup.
  - intros n. rewrite methodNames_elem. apply declaresMethod_rawMethods.
  - by apply sort_Sorted.
Qed.

Lemma method_names_are_the_declared_names_witness :
  (∀ a b, (Sample.codeUnitCompare a b ≤ 0)%Z ∨ (Sample.codeUnitCompare b a ≤ 0)%Z)
  ∧ (∀ n, declaresMethod [Sample.jsonSource; Sample.javascriptSource] n →
          n ∉ Object.prototype_keys)
  ∧ ∃ g, ProgramGenerator.new Sample.codeUnitCompare
           [Sample.jsonSource; Sample.javascriptSource] = Normal g
      ∧ let names := map Method.name (ProgramGenerator.methods g) in
        NoDup names
        ∧ (∀ n, n ∈ names ↔ declaresMethod [Sample.jsonSource; Sample.javascriptSource] n)
        ∧ Sorted (Array.ranksBefore Sample.codeUnitCompare) names.
Proof.
  assert (∀ n, declaresMethod [Sample.jsonSource; Sample.javascriptSource] n →
               n ∉ Object.prototype_keys) as Hplain.
  { intros n (d & Hd & <-)%declaresMethod_rawMethods.
    exact (proj1 (Forall_forall _ _) samples_plainNames d Hd). }
  split; [exact codeUnitCompare_total|]. split; [exact Hplain|].
  exact (method_names_are_the_declared_names Sample.codeUnitCompare
           [Sample.jsonSource; Sample.javascriptSource] codeUnitCompare_total Hplain).
Defined.

(** ** [trim] *)

Lemma trimStart_split (s : string) :
  ∃ l, allWhiteSpace l = true ∧ s = l ++ trimStart s ∧ startsWhite (trimStart s) = false.
Proof.
  induction s as [|c s (l & Hl & Hs & Hstart)]; [by exists ""|].
  cbn [trimStart]. destruct (isWhiteSpace c) eqn:Hc.
  - exists (String c l). cbn [allWhiteSpace]. rewrite Hc, Hl, append_cons, <- Hs. done.
  - exists "". by cbn.
Qed.

Lemma trimEnd_split (s : string) :
  ∃ r, allWhiteSpace r = true ∧ s = trimEnd s ++ r ∧ endsWhite (trimEnd s) = false.
Proof.
  induction s as [|c s (r & Hr & Hs & Hend)]; [by exists ""|].
  cbn [trimEnd]. destruct (trimEnd s) as [|d t] eqn:Ht.
  - rewrite append_empty_l in Hs. subst r. destruct (isWhiteSpace c) eqn:Hc.
    + exists (String c s). cbn [allWhiteSpace]. by rewrite Hc, Hr.
    + exists s. by cbn; rewrite Hc.
  - exists r. split; [done|]. split; [by rewrite append_cons, <- Hs | exact Hend].
Qed.

Lemma trimEnd_startsWhite (s : string) :
  startsWhite s = false → startsWhite (trimEnd s) = false.
Proof.
  destruct s as [|c s]; [done|]. cbn [trimEnd startsWhite]. intros Hc.
  destruct (trimEnd s); [by rewrite Hc | done].
Qed.

Lemma trimStart_id (s : string) : startsWhite s = false → trimStart s = s.
Proof. destruct s as [|c s]; [done|]. cbn. by intros ->. Qed.

Lemma trimEnd_id (s : string) : endsWhite s = false → trimEnd s = s.
Proof.
  induction s as [|c s IH]; [done|]. cbn [endsWhite trimEnd]. destruct s as [|d s].
  - cbn. by intros ->.
  - intros Hend. by rewrite (IH Hend).
Qed.

Lemma trim_ends (value : string) :
  (∃ l r, allWhiteSpace l = true ∧ allWhiteSpace r = true
          ∧ value = l ++ JsString.trim value ++ r)
  ∧ startsWhite (JsString.trim value) = false
  ∧ endsWhite (JsString.trim value) = false.
Proof.
  unfold JsString.trim.
  destruct (trimStart_split value) as (l & Hl & Hs & Hstart).
  destruct (trimEnd_split (trimStart value)) as (r & Hr & Hs' & Hend).
  split_and!; [|by apply trimEnd_startsWhite | exact Hend].
  exists l, r. split_and!; [done|done|]. by rewrite <- Hs', <- Hs.
Qed.

(** [trim] removes white space from the two ends and nothing else: the
    text is the result between two stretches of white space, the result
    neither starts nor ends with white space, and trimming again changes
    nothing. *)
Theorem trim_contract (value : string) :
  (∃ l r, allWhiteSpace l = true ∧ allWhiteSpace r = true
          ∧ value = l ++ utils.trim value ++ r)
  ∧ startsWhite (utils.trim value) = false
  ∧ endsWhite (utils.trim value) = false
  ∧ utils.trim (utils.trim value) = utils.trim value.
Proof.
  unfold utils.trim. destruct (trim_ends value) as (Hsplit & Hstart & Hend).
  split_and!; [exact Hsplit | exact Hstart | exact Hend |].
  unfold JsString.trim at 1. by rewrite (trimStart_id _ Hstart), (trimEnd_id _ Hend).
Qed.

(** ** [patchType], further *)

Lemma patchItems_unregistered (g : ProgramGenerator.t) (items : list string) (s : string) :
  (∀ item, item ∈ items → item ∉ ProgramGenerator.internalTypes g) →
  ProgramGenerator.patchItems g items s = s.
Proof.
  unfold ProgramGenerator.patchItems. revert s.
  induction items as [|item items IH]; intros s Hout; [done|]. cbn [fold_left].
  rewrite (proj2 (includes_false _ _) (Hout item (list_elem_of_here _ _))).
  apply IH. intros y Hy. apply Hout. by right.
Qed.

(** Whatever the registry, a result of [patchType] neither starts nor ends
    with white space, and [patchType] throws what building or running the
    pattern throws. With an empty registry every text is only trimmed; so
    is, under a registry of tokens that hold no syntax character, a text in
    which no registered token occurs. *)
Theorem patchType_trims_and_keeps_other_text
    (hostMatchAll : string → string → completion (list string))
    (g : ProgramGenerator.t) (s : string) :
  (∀ r, ProgramGenerator.patchType hostMatchAll g s = Normal r →
        startsWhite r = false ∧ endsWhite r = false)
  ∧ (∀ e, RegExp.matchAll hostMatchAll (ProgramGenerator.internalTypePattern g) s = Throw e →
          ProgramGenerator.patchType hostMatchAll g s = Throw e)
  ∧ (ProgramGenerator.internalTypes g = [] →
     ProgramGenerator.patchType hostMatchAll g s = Normal (JsString.trim s))
  ∧ (Forall (fun t => RegExp.literal t = true) (ProgramGenerator.internalTypes g) →
     (∀ t, t ∈ ProgramGenerator.internalTypes g → ¬ substringOf t s) →
     ProgramGenerator.patchType hostMatchAll g s = Normal (JsString.trim s)).
Proof.
  assert (ProgramGenerator.internalTypes g = [] →
          ProgramGenerator.patchType hostMatchAll g s = Normal (JsString.trim s)) as Hempty.
  { intros Htypes.
    unfold ProgramGenerator.patchType, ProgramGenerator.matchedItems,
      ProgramGenerator.internalTypePattern, RegExp.matchAll.
    rewrite Htypes. cbn [join RegExp.alternatives forallb RegExp.literal andb].
    cbn [mbind completion_bind]. f_equal. f_equal.
    apply patchItems_unregistered. intros item _. rewrite Htypes. apply not_elem_of_nil. }
  split_and!.
  - unfold ProgramGenerator.patchType. intros r Hr.
    destruct (ProgramGenerator.matchedItems hostMatchAll g s) as [items|]; [|done].
    cbn [mbind completion_bind] in Hr. injection Hr as <-.
    by destruct (trim_ends (ProgramGenerator.patchItems g items s)) as (_ & ? & ?).
  - intros e He. unfold ProgramGenerator.patchType, ProgramGenerator.matchedItems.
    by rewrite He.
  - exact Hempty.
  - intros Hliteral Habsent.
    destruct (ProgramGenerator.internalTypes g) as [|t types] eqn:Htypes; [by apply Hempty|].
    rewrite patchType_literal by (by rewrite Htypes). unfold literalPatch, literalMatches.
    rewrite Htypes. unfold matchAll. by rewrite (matchAllFrom_absent (t :: types) s Habsent).
Qed.

(** ** The tokens of the Options pattern, further *)

Lemma allWordChars_append (a b : string) :
  allWordChars (a ++ b) = allWordChars a && allWordChars b.
Proof.
  induction a as [|c a IH]; [done|]. rewrite append_cons. cbn [allWordChars].
  by rewrite IH, andb_assoc.
Qed.

Lemma take_wordRun (k : nat) (s : string) :
  (k ≤ OptionsPattern.wordRun s)%nat → allWordChars (OptionsPattern.take k s) = true.
Proof.
  revert s. induction k as [|k IH]; intros [|c s] Hk; try done.
  cbn [OptionsPattern.wordRun] in Hk. cbn [OptionsPattern.take allWordChars].
  destruct (OptionsPattern.isWordChar c); [|lia]. apply IH. lia.
Qed.

Lemma matchAt_word (s m : string) :
  OptionsPattern.matchAt s = Some m →
  ∃ w, m = w ++ "Options " ∧ w ≠ "" ∧ allWordChars w = true ∧ startsWith m s = true.
Proof.
  unfold OptionsPattern.matchAt.
  destruct (OptionsPattern.backtrack (OptionsPattern.wordRun s) s) as [k|] eqn:Hk; [|done].
  intros [= <-]. apply backtrack_Some in Hk as [[Hk1 Hk2] Hst].
  exists (OptionsPattern.take k s). split_and!.
  - rewrite take_add. apply startsWith_take in Hst. cbn [String.length] in Hst. by rewrite Hst.
  - destruct k as [|k]; [lia|]. destruct s; [cbn in Hk2; lia | done].
  - by apply take_wordRun.
  - rewrite <- (take_drop (k + 8) s) at 2. apply startsWith_append.
Qed.

Lemma options_matchAllFrom_position (skip : nat) (s m : string) :
  m ∈ OptionsPattern.matchAllFrom skip s →
  ∃ a s', s = a ++ s' ∧ OptionsPattern.matchAt s' = Some m.
Proof.
  revert skip. induction s as [|c s IH]; intros skip.
  - destruct skip as [|skip]; cbn [OptionsPattern.matchAllFrom]; [|by intros ?%elem_of_nil].
    destruct (OptionsPattern.matchAt "") as [m'|] eqn:Hm; [|by intros ?%elem_of_nil].
    intros [->|?%elem_of_nil]%elem_of_cons; [by exists "", ""|done].
  - assert (∀ k, m ∈ OptionsPattern.matchAllFrom k s →
                 ∃ a s', String c s = a ++ s' ∧ OptionsPattern.matchAt s' = Some m) as Hnext.
    { intros k (a & s' & -> & Hm)%IH. by exists (String c a), s'. }
    destruct skip as [|skip]; cbn [OptionsPattern.matchAllFrom]; [|apply Hnext].
    destruct (OptionsPattern.matchAt (String c s)) as [m'|] eqn:Hm; [|apply Hnext].
    intros [->|Hin]%elem_of_cons; [by exists "", (String c s) | by eapply Hnext].
Qed.

Lemma optionTypeNames_word_occurrence (srcs : list SourceFile) (x : string) :
  x ∈ ProgramGenerator.optionTypeNames srcs →
  (∃ w, x = w ++ "Options" ∧ w ≠ "")
  ∧ allWordChars x = true
  ∧ substringOf (x ++ " ") (ProgramGenerator.fullTextOf srcs).
Proof.
  unfold ProgramGenerator.optionTypeNames. intros Hx.
  apply (proj1 (getUnique_elem _ _)) in Hx.
  apply list_elem_of_fmap in Hx as (m & -> & Hm).
  apply options_matchAllFrom_position in Hm as (a & s' & Htext & Hm).
  apply matchAt_word in Hm as (w & -> & Hw & Hword & Hstart).
  assert (utils.trim (w ++ "Options ") = w ++ "Options") as ->.
  { unfold utils.trim, JsString.trim. destruct w as [|c w]; [done|].
    cbn [allWordChars] in Hword. apply andb_true_iff in Hword as [Hc _].
    rewrite append_cons. cbn [trimStart]. rewrite (wordChar_not_whiteSpace c Hc).
    rewrite <- append_cons. by rewrite trimEnd_append. }
  split_and!.
  - by exists w.
  - rewrite allWordChars_append, Hword. reflexivity.
  - exists a, (OptionsPattern.drop (String.length (w ++ "Options ")) s').
    rewrite Htext. f_equal.
    etrans; [apply (startsWith_split _ _ Hstart)|]. by rewrite !append_assoc.
Qed.

(** A token the Options pass pushes is a run of word characters that ends
    in [Options], with at least one character before, and it stands in the
    text of the root sources followed by a space. *)
Theorem optionTypeNames_are_words_before_a_space (srcs : list SourceFile) (x : string) :
  x ∈ ProgramGenerator.optionTypeNames srcs →
  (∃ w, x = w ++ "Options" ∧ w ≠ "")
  ∧ allWordChars x = true
  ∧ substringOf (x ++ " ") (ProgramGenerator.fullTextOf srcs).
Proof. apply optionTypeNames_word_occurrence. Qed.

Lemma optionTypeNames_are_words_before_a_space_witness :
  "ObjectOptions" ∈ ProgramGenerator.optionTypeNames [Sample.jsonSource; Sample.javascriptSource]
  ∧ allWordChars "ObjectOptions" = true
  ∧ substringOf ("ObjectOptions" ++ " ")
      (ProgramGenerator.fullTextOf [Sample.jsonSource; Sample.javascriptSource]).
Proof.
  assert ("ObjectOptions"
          ∈ ProgramGenerator.optionTypeNames [Sample.jsonSource; Sample.javascriptSource])
    as Hin by (vm_compute; left).
  split; [exact Hin|].
  exact (proj2 (optionTypeNames_are_words_before_a_space
                  [Sample.jsonSource; Sample.javascriptSource] "ObjectOptions" Hin)).
Defined.

(** ** The command, further *)

Section Command.
Variable parse : string → list Node.
Variable programFiles : list string.
Variable localeCompare : string → string → Z.
Variable parseTemplate : string → completion Mustache.Template.
Variable PrettierOptions : Type.
Variable emptyOptions : PrettierOptions.
Variable resolveConfig : gmap string string → string → completion (option PrettierOptions).
Variable format : string → PrettierOptions → completion string.
Variable writeError : string → option string.

(** The action of the command throws exactly when the constructor throws,
    and the same error. Otherwise it completes, whatever the template, the
    formatter and the file system will answer: it leaves a promise. When the
    event loop runs the promise and the promise completes, the formatted
    content is in the file of the output path and no other file has changed;
    when the formatter rejects, the promise rejects, after the action has
    completed, and nothing handles the rejection. *)
Theorem handle_leaves_the_write_to_the_event_loop (templateText path : string)
    (files : gmap string string) :
  let sourceFiles := GenerateTypes.getSourceFiles parse programFiles files in
  let action := GenerateTypes.handle parse programFiles localeCompare parseTemplate
                  PrettierOptions emptyOptions resolveConfig format writeError
                  templateText path files in
  (∀ e, action = Throw e ↔ ProgramGenerator.new localeCompare sourceFiles = Throw e)
  ∧ (∀ g, ProgramGenerator.new localeCompare sourceFiles = Normal g →
       ∃ pending, action = Normal pending
         ∧ (∀ later out, pending later = Normal out →
              (∀ other, other ≠ path → out !! other = later !! other)
              ∧ ∃ template options formatted,
                  parseTemplate templateText = Normal template
                  ∧ resolveConfig later path = Normal options
                  ∧ format (ProgramGenerator.content template g)
                      (default emptyOptions options) = Normal formatted
                  ∧ out !! path = Some formatted)
         ∧ (∀ later template options e,
              parseTemplate templateText = Normal template →
              resolveConfig later path = Normal options →
              format (ProgramGenerator.content template g) (default emptyOptions options)
              = Throw e →
              pending later = Throw e)).
Proof.
  cbn zeta. unfold GenerateTypes.handle. split.
  - intros e. destruct (ProgramGenerator.new localeCompare _) as [g|e']; cbn; [done|].
    split; intros [= ->]; done.
  - intros g ->. cbn [mbind completion_bind]. eexists. split; [reflexivity|].
    unfold ProgramGenerator.writeToFile, ProgramGenerator.renderTemplate, fs.writeFileSync.
    split.
    + intros later out.
      destruct (parseTemplate templateText) as [template|]; [|done].
      cbn [mbind completion_bind].
      destruct (resolveConfig later path) as [options|]; [|done].
      cbn [mbind completion_bind].
      destruct (format _ _) as [formatted|] eqn:Hformat; [|done].
      cbn [mbind completion_bind].
      destruct (writeError path); [done|]. intros [= <-]. split.
      * intros other Hother. by rewrite lookup_insert_ne.
      * exists template, options, formatted. by rewrite lookup_insert_eq.
    + intros later template options e -> ->. cbn [mbind completion_bind]. by intros ->.
Qed.
End Command.

(** On the sample disk, with a formatter that rejects: the action completes
    and the run ends on the rejection; with no directory to write to, the run
    ends on the error of the write. Either way the action has completed
    before. *)
Example sample_rejections :
  (∃ pending,
     GenerateTypes.handle Sample.parse ProgramGenerator.config.rootFiles Sample.codeUnitCompare
       Sample.parseTemplate string LF Sample.resolveConfig Sample.rejectingFormat
       Sample.writeError Sample.templateText "./lib/builder.js" Sample.disk = Normal pending)
  ∧ GenerateTypes.main Sample.parse ProgramGenerator.config.rootFiles Sample.codeUnitCompare
      Sample.parseTemplate string LF Sample.resolveConfig Sample.rejectingFormat
      Sample.writeError "./lib/builder.js" Sample.disk = Throw "SyntaxError"
  ∧ GenerateTypes.main Sample.parse ProgramGenerator.config.rootFiles Sample.codeUnitCompare
      Sample.parseTemplate string LF Sample.resolveConfig Sample.format
      Sample.noDirectory "./lib/builder.js" Sample.disk = Throw "ENOENT".
Proof. split; [eexists|split]; vm_compute; reflexivity. Qed.

(** ** [getValueSurroundedBy] *)

Lemma take_all (n : nat) (s : string) :
  (String.length s ≤ n)%nat → OptionsPattern.take n s = s.
Proof.
  revert s. induction n as [|n IH]; intros [|c s] Hlen; try done; cbn in Hlen; [lia|].
  cbn. rewrite IH; [done|lia].
Qed.

Lemma take_take_le (n k : nat) (s : string) :
  (String.length s ≤ n)%nat → OptionsPattern.take (Nat.min k n) s = OptionsPattern.take k s.
Proof.
  intros Hlen. destruct (decide (k ≤ n)%nat) as [Hk|Hk].
  - by rewrite Nat.min_l.
  - rewrite Nat.min_r by lia. rewrite !take_all; [done|lia|lia].
Qed.

Lemma indexOfFrom_range (t s : string) (from : Z) :
  StringPrototype.indexOfFrom t s from = (-1)%Z
  ∨ (from ≤ StringPrototype.indexOfFrom t s from)%Z.
Proof.
  revert from. induction s as [|c s IH]; intros from; cbn [StringPrototype.indexOfFrom].
  - destruct (startsWith t ""); [right; lia | by left].
  - destruct (startsWith t (String c s)); [right; lia|].
    destruct (IH (from + 1)%Z); [by left | right; lia].
Qed.

Lemma indexOfFrom_found (t s : string) (from i : Z) :
  (0 ≤ from)%Z → StringPrototype.indexOfFrom t s from = i → (from ≤ i)%Z →
  ∃ a b, s = a ++ t ++ b ∧ i = (from + Z.of_nat (String.length a))%Z.
Proof.
  revert from. induction s as [|c s IH]; intros from Hfrom; cbn [StringPrototype.indexOfFrom].
  - destruct (startsWith t "") eqn:Ht; [|lia]. intros <- _.
    exists "", (OptionsPattern.drop (String.length t) ""). split; [|cbn; lia].
    by apply startsWith_split.
  - destruct (startsWith t (String c s)) eqn:Ht.
    + intros <- _. exists "", (OptionsPattern.drop (String.length t) (String c s)).
      split; [by apply startsWith_split | cbn; lia].
    + intros Hi Hle.
      destruct (indexOfFrom_range t s (from + 1)) as [Hnone|Hge]; [lia|].
      destruct (IH (from + 1)%Z ltac:(lia) Hi ltac:(lia)) as (a & b & -> & ->).
      exists (String c a), b. split; [done|]. cbn [String.length]. lia.
Qed.

Lemma indexOfFrom_occurs (t s : string) (from : Z) :
  substringOf t s → (from ≤ StringPrototype.indexOfFrom t s from)%Z.
Proof.
  intros (a & b & ->). revert from. induction a as [|c a IH]; intros from.
  - rewrite append_empty_l.
    destruct (t ++ b) eqn:Htb; cbn [StringPrototype.indexOfFrom]; rewrite <- Htb;
      rewrite startsWith_append; lia.
  - rewrite append_cons. cbn [StringPrototype.indexOfFrom].
    destruct (startsWith t _); [lia|]. specialize (IH (from + 1)%Z). lia.
Qed.

Lemma indexOfFrom_absent (t s : string) (from : Z) :
  ¬ substringOf t s → StringPrototype.indexOfFrom t s from = (-1)%Z.
Proof.
  revert from. induction s as [|c s IH]; intros from Habsent; cbn [StringPrototype.indexOfFrom].
  - destruct (startsWith t "") eqn:Ht; [|done].
    by destruct Habsent; apply substringOf_startsWith.
  - destruct (startsWith t (String c s)) eqn:Ht.
    + by destruct Habsent; apply substringOf_startsWith.
    + apply IH. intros Hs. by apply Habsent, substringOf_cons.
Qed.

Lemma substring_at (a t b : string) :
  StringPrototype.substring (a ++ t ++ b) (Z.of_nat (String.length a))
    (Z.of_nat (String.length a) + Z.of_nat (String.length t))%Z
  = t.
Proof.
  unfold StringPrototype.substring. rewrite !string_length_append.
  set (la := String.length a). set (lt := String.length t). set (lb := String.length b).
  replace (Z.to_nat _) with lt by lia.
  replace (Z.to_nat _) with la by lia.
  unfold la, lt. by rewrite drop_append_length, take_append_length.
Qed.

Lemma substring_swap (s : string) (x y : Z) :
  StringPrototype.substring s x y = StringPrototype.substring s y x.
Proof.
  unfold StringPrototype.substring. cbn zeta.
  by rewrite (Z.min_comm (Z.min (Z.max x 0) _)), (Z.max_comm (Z.min (Z.max x 0) _)).
Qed.

(** With the same token on the two sides, [getValueSurroundedBy] does not
    give the text between two occurrences: both searches stop at the first
    occurrence, and the result is the token itself, trimmed, with or without
    [includeTokens]. *)
Theorem getValueSurroundedBy_same_token (token value : string) (includeTokens : bool) :
  substringOf token value →
  utilsMore.getValueSurroundedBy token token value includeTokens = JsString.trim token.
Proof.
  intros Hocc. unfold utilsMore.getValueSurroundedBy, StringPrototype.indexOf.
  pose proof (indexOfFrom_occurs token value 0 Hocc) as Hge.
  destruct (indexOfFrom_found token value 0 _ ltac:(lia) eq_refl Hge) as (a & b & -> & Hi).
  rewrite Hi, Z.add_0_l.
  destruct includeTokens; [|rewrite substring_swap]; by rewrite substring_at.
Qed.

Lemma getValueSurroundedBy_same_token_witness :
  substringOf "|" "a |b| c"
  ∧ utilsMore.getValueSurroundedBy "|" "|" "a |b| c" false = "|".
Proof.
  assert (substringOf "|" "a |b| c") as Hocc by (apply occurs_substringOf; reflexivity).
  split; [exact Hocc|].
  exact (getValueSurroundedBy_same_token "|" "a |b| c" false Hocc).
Defined.

(** When the first occurrence of the start token comes before the first
    occurrence of the end token, without overlap, [getValueSurroundedBy]
    gives the text from the one to the other, trimmed: with the two tokens
    under [includeTokens], without them otherwise. *)
Theorem getValueSurroundedBy_between (pre startToken inner endToken post : string) :
  let value := pre ++ startToken ++ inner ++ endToken ++ post in
  StringPrototype.indexOf startToken value = Z.of_nat (String.length pre) →
  StringPrototype.indexOf endToken value
  = Z.of_nat (String.length pre + String.length startToken + String.length inner) →
  utilsMore.getValueSurroundedBy startToken endToken value true
  = JsString.trim (startToken ++ inner ++ endToken)
  ∧ utilsMore.getValueSurroundedBy startToken endToken value false = JsString.trim inner.
Proof.
  intros value Hstart Hend. unfold utilsMore.getValueSurroundedBy.
  rewrite Hstart, Hend. split; f_equal.
  - assert (value = pre ++ (startToken ++ inner ++ endToken) ++ post) as ->
      by (unfold value; by rewrite !append_assoc).
    etrans; [|apply (substring_at pre (startToken ++ inner ++ endToken) post)].
    f_equal. rewrite !string_length_append. lia.
  - assert (value = (pre ++ startToken) ++ inner ++ (endToken ++ post)) as ->
      by (unfold value; by rewrite !append_assoc).
    etrans; [|apply (substring_at (pre ++ startToken) inner (endToken ++ post))].
    rewrite !string_length_append. f_equal; lia.
Qed.

Lemma getValueSurroundedBy_between_witness :
  StringPrototype.indexOf "{" ("x " ++ "{" ++ " y " ++ "}" ++ " z") = Z.of_nat (String.length "x ")
  ∧ StringPrototype.indexOf "}" ("x " ++ "{" ++ " y " ++ "}" ++ " z")
    = Z.of_nat (String.length "x " + String.length "{" + String.length " y ")
  ∧ utilsMore.getValueSurroundedBy "{" "}" ("x " ++ "{" ++ " y " ++ "}" ++ " z") true = "{ y }"
  ∧ utilsMore.getValueSurroundedBy "{" "}" ("x " ++ "{" ++ " y " ++ "}" ++ " z") false = "y".
Proof.
  split; [reflexivity|]. split; [reflexivity|].
  exact (getValueSurroundedBy_between "x " "{" " y " "}" " z" eq_refl eq_refl).
Defined.

(** When neither token occurs in the value, [getValueSurroundedBy] does not
    give the empty text: the two positions are [-1], and the result is the
    beginning of the value, one character shorter than the end token under
    [includeTokens] and than the start token otherwise, trimmed. *)
Theorem getValueSurroundedBy_without_tokens (startToken endToken value : string) :
  ¬ substringOf startToken value → ¬ substringOf endToken value →
  utilsMore.getValueSurroundedBy startToken endToken value true
  = JsString.trim (OptionsPattern.take (String.length endToken - 1) value)
  ∧ utilsMore.getValueSurroundedBy startToken endToken value false
    = JsString.trim (OptionsPattern.take (String.length startToken - 1) value).
Proof.
  intros Hstart Hend. unfold utilsMore.getValueSurroundedBy, StringPrototype.indexOf.
  rewrite (indexOfFrom_absent _ _ 0 Hstart), (indexOfFrom_absent _ _ 0 Hend).
  unfold StringPrototype.substring. cbn zeta.
  split; f_equal.
  - replace (Z.to_nat (Z.min _ _)) with 0%nat by lia.
    replace (Z.to_nat _) with (Nat.min (String.length endToken - 1) (String.length value)) by lia.
    cbn [OptionsPattern.drop]. replace (OptionsPattern.drop 0 value) with value by by destruct value.
    by apply take_take_le.
  - replace (Z.to_nat (Z.min _ _)) with 0%nat by lia.
    replace (Z.to_nat _) with (Nat.min (String.length startToken - 1) (String.length value))
      by lia.
    replace (OptionsPattern.drop 0 value) with value by by destruct value.
    by apply take_take_le.
Qed.

Lemma getValueSurroundedBy_without_tokens_witness :
  ¬ substringOf "<<" "abc" ∧ ¬ substringOf ">>>" "abc"
  ∧ utilsMore.getValueSurroundedBy "<<" ">>>" "abc" true = "ab"
  ∧ utilsMore.getValueSurroundedBy "<<" ">>>" "abc" false = "a".
Proof.
  assert (¬ substringOf "<<" "abc") as Hstart
    by (intros Hocc%occurs_substringOf; discriminate Hocc).
  assert (¬ substringOf ">>>" "abc") as Hend
    by (intros Hocc%occurs_substringOf; discriminate Hocc).
  split; [exact Hstart|]. split; [exact Hend|].
  exact (getValueSurroundedBy_without_tokens "<<" ">>>" "abc" Hstart Hend).
Defined.

(** ** The matched tokens *)



(** ** The Options pass and the files *)

Lemma append_eq_append (a b c d : string) :
  a ++ b = c ++ d →
  (∃ k, c = a ++ k ∧ b = k ++ d) ∨ (∃ k, a = c ++ k ∧ d = k ++ b).
Proof.
  revert c. induction a as [|x a IH]; intros c Heq.
  - left. by exists c.
  - destruct c as [|y c].
    + right. by exists (String x a).
    + rewrite !append_cons in Heq. injection Heq as -> Heq.
      destruct (IH c Heq) as [(k & -> & ->)|(k & -> & ->)]; [left|right]; by exists k.
Qed.

Lemma substringOf_across (y a b : string) (c : ascii) :
  occursIn c y = false → substringOf y (a ++ String c b) →
  substringOf y a ∨ substringOf y b.
Proof.
  intros Hy (p & q & Heq).
  destruct (append_eq_append _ _ _ _ Heq) as [(k & -> & Hk)|(k & -> & Hk)].
  - destruct k as [|x k].
    + rewrite append_empty_l in Hk. destruct y as [|z y].
      * left. exists a, "". by rewrite append_empty_r.
      * rewrite append_cons in Hk. injection Hk as <- _.
        cbn in Hy. by rewrite decide_True in Hy.
    + rewrite append_cons in Hk. injection Hk as <- ->. right. by exists k, q.
  - destruct (append_eq_append _ _ _ _ Hk) as [(k' & -> & Hk')|(k' & -> & Hk')].
    + left. by exists p, k'.
    + destruct k' as [|x k'].
      * left. exists p, "". by rewrite !append_empty_r.
      * rewrite append_cons in Hk'. injection Hk' as <- _.
        rewrite occursIn_append in Hy. cbn in Hy. rewrite decide_True in Hy by done.
        by rewrite orb_true_r in Hy.
Qed.

Lemma fullText_cons (acc : string) (srcs : list SourceFile) :
  fold_left (fun fullText source => fullText ++ (getFullText source ++ LF)) srcs acc
  = acc ++ ProgramGenerator.fullTextOf srcs.
Proof.
  unfold ProgramGenerator.fullTextOf. revert acc.
  induction srcs as [|source srcs IH]; intros acc; cbn [fold_left].
  - by rewrite append_empty_r.
  - rewrite (IH (acc ++ _)), (IH ("" ++ _)). by rewrite append_empty_l, append_assoc.
Qed.

Lemma allWordChars_no_LF (s : string) : allWordChars s = true → occursIn "010" s = false.
Proof.
  induction s as [|c s IH]; [done|]. cbn [allWordChars occursIn].
  intros [Hc Hs]%andb_true_iff. case_decide as Heq; [|by apply IH].
  subst c. discriminate Hc.
Qed.

(** The Options pass reads each root source on its own: a token it pushes
    stands, followed by a space, in the text of one root source, and where
    no root source holds [Options ] the pass pushes nothing. *)
Theorem optionTypeNames_come_from_one_source (srcs : list SourceFile) :
  (∀ x, x ∈ ProgramGenerator.optionTypeNames srcs →
        ∃ source, source ∈ srcs ∧ substringOf (x ++ " ") (getFullText source))
  ∧ ((∀ source, source ∈ srcs → ¬ substringOf "Options " (getFullText source)) →
     ProgramGenerator.optionTypeNames srcs = []).
Proof.
  assert (∀ x, x ∈ ProgramGenerator.optionTypeNames srcs →
               ∃ source, source ∈ srcs ∧ substringOf (x ++ " ") (getFullText source)) as Hone.
  { intros x Hx.
    destruct (optionTypeNames_word_occurrence srcs x Hx) as (_ & Hword & Hocc).
    assert (occursIn "010" (x ++ " ") = false) as Hline
      by (rewrite occursIn_append, (allWordChars_no_LF x Hword); reflexivity).
    clear Hx Hword. induction srcs as [|source srcs IH].
    - destruct Hocc as ([|? ?] & b & Heq); [|done].
      destruct x; by rewrite ?append_cons in Heq.
    - unfold ProgramGenerator.fullTextOf in Hocc. cbn [fold_left] in Hocc.
      rewrite fullText_cons, append_empty_l, append_assoc in Hocc.
      apply (substringOf_across _ _ _ _ Hline) in Hocc as [Hhere|Hrest].
      + exists source. split; [by left | done].
      + destruct (IH Hrest) as (source' & Hin & Hsub). exists source'. split; [by right | done]. }
  split; [exact Hone|]. intros Hnone.
  destruct (ProgramGenerator.optionTypeNames srcs) as [|x xs] eqn:Hx; [done|]. exfalso.
  destruct (Hone x ltac:(left)) as (source & Hin & (a & b & Hsub)).
  assert (x ∈ ProgramGenerator.optionTypeNames srcs) as Hxin by (rewrite Hx; left).
  destruct (optionTypeNames_word_occurrence srcs x Hxin) as ((w & -> & _) & _ & _).
  apply (Hnone source Hin). exists (a ++ w), b. rewrite Hsub. by rewrite !append_assoc.
Qed.
